(** * grid-areas: a Tailwind CSS plugin for CSS Grid named areas

    Shallow embedding of [src/index.ts] (the plugin implementation) and
    verification of its documented behaviour.

    JavaScript strings are sequences of UTF-16 code units; they are modelled
    as lists of code units, so that the white space and line terminator
    classes used by [String.prototype.trim] and by the regular expressions
    of the source are the ones of ECMAScript. *)

From Stdlib Require Import Ascii String.
From Stdlib Require Import List NArith Bool Arith Lia.
Import ListNotations.

Set Implicit Arguments.

(** ** JavaScript strings *)

Module JS.

(** A UTF-16 code unit. *)
Definition char := N.

Definition jsstring := list char.

(** An ASCII literal of the source as a JavaScript string. *)
Definition lit (s : string) : jsstring :=
  List.map N_of_ascii (list_ascii_of_string s).

Arguments lit s%_string.

Definition char_eqb : char -> char -> bool := N.eqb.

Fixpoint str_eqb (a b : jsstring) : bool :=
  match a, b with
  | [], [] => true
  | x :: a', y :: b' => char_eqb x y && str_eqb a' b'
  | _, _ => false
  end.

Definition str_eq_dec : forall a b : jsstring, {a = b} + {a <> b} :=
  list_eq_dec N.eq_dec.

(** ECMAScript LineTerminator: LF, CR, LS (U+2028), PS (U+2029). *)
Definition isLineTerminator (c : char) : bool :=
  (N.eqb c 10 || N.eqb c 13 || N.eqb c 8232 || N.eqb c 8233)%N.

(** ECMAScript WhiteSpace together with LineTerminator: the class of [\s]
    and the code units removed by [trim].  TAB, LF, VT, FF, CR, SP, NBSP,
    U+1680, U+2000..U+200A, LS, PS, U+202F, U+205F, U+3000, U+FEFF. *)
Definition isWhiteSpace (c : char) : bool :=
  ((9 <=? c) && (c <=? 13)
   || N.eqb c 32 || N.eqb c 160 || N.eqb c 5760
   || (8192 <=? c) && (c <=? 8202)
   || N.eqb c 8232 || N.eqb c 8233 || N.eqb c 8239 || N.eqb c 8287
   || N.eqb c 12288 || N.eqb c 65279)%N.

Fixpoint trimStart (s : jsstring) : jsstring :=
  match s with
  | [] => []
  | c :: s' => if isWhiteSpace c then trimStart s' else s
  end.

Definition trimEnd (s : jsstring) : jsstring := rev (trimStart (rev s)).

(** [String.prototype.trim]. *)
Definition trim (s : jsstring) : jsstring := trimEnd (trimStart s).

(** [Array.prototype.join]. *)
Fixpoint join (sep : jsstring) (l : list jsstring) : jsstring :=
  match l with
  | [] => []
  | [x] => x
  | x :: l' => x ++ sep ++ join sep l'
  end.

Fixpoint starts_with (p s : jsstring) : bool :=
  match p, s with
  | [], _ => true
  | x :: p', y :: s' => char_eqb x y && starts_with p' s'
  | _ :: _, [] => false
  end.

(** [String.prototype.split] with a non-empty string separator.  [skip]
    counts the code units of a separator just recognised that are still to
    be passed over; [cur] is the current piece, reversed. *)
Fixpoint split_go (sep : jsstring) (skip : nat) (cur s : jsstring)
  : list jsstring :=
  match s with
  | [] => [rev cur]
  | c :: s' =>
      match skip with
      | S k => split_go sep k cur s'
      | O =>
          if starts_with sep s
          then rev cur :: split_go sep (Nat.pred (length sep)) [] s'
          else split_go sep O (c :: cur) s'
      end
  end.

Definition split (sep s : jsstring) : list jsstring := split_go sep 0 [] s.

(** [s.split(/\s+/)]: the pieces between the maximal runs of white space.
    A run at the start or at the end of [s] leaves an empty piece there,
    and the empty string gives one empty piece.  [inrun] tells that the
    previous code unit belonged to a run. *)
Fixpoint splitWs_go (inrun : bool) (cur s : jsstring) : list jsstring :=
  match s with
  | [] => [rev cur]
  | c :: s' =>
      if isWhiteSpace c
      then if inrun then splitWs_go true [] s'
           else rev cur :: splitWs_go true [] s'
      else splitWs_go false (c :: cur) s'
  end.

Definition splitWs (s : jsstring) : list jsstring := splitWs_go false [] s.

(** [s.replace(/c/g, d)] for one code unit [c] replaced by one code unit. *)
Definition replaceAll (c d : char) (s : jsstring) : jsstring :=
  List.map (fun x => if char_eqb x c then d else x) s.

End JS.

(** ** Regular expressions *)

Module Regex.
Import JS.

(** The fragment of the regular expression syntax that the source uses:
    classes of code units, concatenation and iteration. *)
Inductive regex : Type :=
| Void : regex
| Eps : regex
| Class : (char -> bool) -> regex
| Cat : regex -> regex -> regex
| Alt : regex -> regex -> regex
| Star : regex -> regex.

(** A literal code unit. *)
Definition Chr (c : char) : regex := Class (char_eqb c).

(** [.] without the [s] flag matches any code unit but a line terminator. *)
Definition Dot : regex := Class (fun c => negb (isLineTerminator c)).

(** Any code unit at all. *)
Definition Any : regex := Class (fun _ => true).

Fixpoint Lit (s : jsstring) : regex :=
  match s with
  | [] => Eps
  | c :: s' => Cat (Chr c) (Lit s')
  end.

Fixpoint nullable (r : regex) : bool :=
  match r with
  | Void => false
  | Eps => true
  | Class _ => false
  | Cat a b => nullable a && nullable b
  | Alt a b => nullable a || nullable b
  | Star _ => true
  end.

Fixpoint deriv (c : char) (r : regex) : regex :=
  match r with
  | Void => Void
  | Eps => Void
  | Class p => if p c then Eps else Void
  | Cat a b =>
      if nullable a then Alt (Cat (deriv c a) b) (deriv c b)
      else Cat (deriv c a) b
  | Alt a b => Alt (deriv c a) (deriv c b)
  | Star a => Cat (deriv c a) (Star a)
  end.

(** The whole of [s] matches [r]: [/^r$/.test(s)]. *)
Fixpoint matches (r : regex) (s : jsstring) : bool :=
  match s with
  | [] => nullable r
  | c :: s' => matches (deriv c r) s'
  end.

(** Some substring of [s] matches [r]: [/r/.test(s)]. *)
Definition search (r : regex) (s : jsstring) : bool :=
  matches (Cat (Star Any) (Cat r (Star Any))) s.

(** The words of a regular expression. *)
Inductive lang : regex -> jsstring -> Prop :=
| L_eps : lang Eps []
| L_class : forall p c, p c = true -> lang (Class p) [c]
| L_cat : forall a b s t, lang a s -> lang b t -> lang (Cat a b) (s ++ t)
| L_alt_l : forall a b s, lang a s -> lang (Alt a b) s
| L_alt_r : forall a b s, lang b s -> lang (Alt a b) s
| L_star_nil : forall a, lang (Star a) []
| L_star_cons : forall a s t,
    lang a s -> lang (Star a) t -> lang (Star a) (s ++ t).

End Regex.

(** ** The plugin *)

Module GridAreas.
Import JS Regex.

(** A JavaScript object with string keys, in the order in which the keys
    were first assigned; assigning to a key that is present replaces its
    value in place.  (No key built by the plugin is an array index, so the
    order of the keys is the order of insertion.) *)
Definition obj (V : Type) : Type := list (jsstring * V).

Fixpoint obj_set (V : Type) (k : jsstring) (v : V) (o : obj V) : obj V :=
  match o with
  | [] => [(k, v)]
  | (k', v') :: o' =>
      if str_eqb k' k then (k', v) :: o' else (k', v') :: obj_set k v o'
  end.

Fixpoint obj_get (V : Type) (k : jsstring) (o : obj V) : option V :=
  match o with
  | [] => None
  | (k', v') :: o' => if str_eqb k' k then Some v' else obj_get k o'
  end.

Definition obj_keys (V : Type) (o : obj V) : list jsstring :=
  List.map fst o.

(** A [Set<string>], in insertion order. *)
Definition StringSet : Type := list jsstring.

Definition set_has (x : jsstring) (s : StringSet) : bool :=
  existsb (str_eqb x) s.

Definition set_add (x : jsstring) (s : StringSet) : StringSet :=
  if set_has x s then s else s ++ [x].

(** The interfaces [GridTemplateArea] and [GridAreasPluginOptions]. *)
Record GridTemplateArea : Type := {
  rows : list jsstring;
  gridTemplateRows : option jsstring;
  gridTemplateColumns : option jsstring
}.

(** [GridTemplateArea | string[]] *)
Inductive AreaConfig : Type :=
| RowsOnly : list jsstring -> AreaConfig
| FullArea : GridTemplateArea -> AreaConfig.

(** [gridTemplateAreas?: Record<string, GridTemplateArea | string[]>], as
    the entries that [Object.entries] enumerates. *)
Record GridAreasPluginOptions : Type := {
  gridTemplateAreas : option (list (jsstring * AreaConfig))
}.

(** The body of a utility: CSS properties and their values. *)
Definition CssInJs : Type := obj jsstring.

Definition CSS_KEYWORDS : list jsstring :=
  [lit "none"; lit "inherit"; lit "initial"; lit "revert";
   lit "revert-layer"; lit "unset"].

Definition GRID_AREA_KEYWORDS : list jsstring := lit "auto" :: CSS_KEYWORDS.

(** The double quote, U+0022. *)
Definition dquote : char := 34%N.

Definition space : char := 32%N.

Definition underscore : char := 95%N.

Definition comma : char := 44%N.

(** The template literal that puts a row between double quotes. *)
Definition quoted (row : jsstring) : jsstring := dquote :: row ++ [dquote].

(** The inner loop of [extractAreaNames]. *)
Definition addAreas (areaNames : StringSet) (areas : list jsstring)
  : StringSet :=
  fold_left
    (fun acc area =>
       if negb (str_eqb area (lit ".")) && negb (str_eqb area (lit ".."))
       then set_add area acc
       else acc)
    areas areaNames.

Definition extractAreaNames (rows : list jsstring) : list jsstring :=
  fold_left (fun areaNames row => addAreas areaNames (splitWs (trim row)))
    rows [].

Definition formatGridTemplateAreas (rows : list jsstring) : jsstring :=
  join [space] (List.map quoted rows).

Definition normalizeAreaConfig (config : AreaConfig) : GridTemplateArea :=
  match config with
  | RowsOnly r =>
      {| rows := r; gridTemplateRows := None; gridTemplateColumns := None |}
  | FullArea g => g
  end.

(** [/^var\(.*\)$/] *)
Definition re_var : regex :=
  Cat (Lit (lit "var(")) (Cat (Star Dot) (Chr 41%N)).

(** The callback mapped over the rows of an arbitrary value. *)
Definition arbitraryRow (row : jsstring) : jsstring :=
  let trimmed := trim (replaceAll underscore space row) in
  if search re_var trimmed then trimmed else quoted trimmed.

Definition parseArbitraryGridAreas (value : jsstring) : jsstring :=
  if matches re_var value then value
  else join [space] (List.map arbitraryRow (split (lit ",") value)).

(** The truth value of an optional string in a condition: [undefined] and
    the empty string are falsy. *)
Definition truthy (o : option jsstring) : bool :=
  match o with
  | Some (_ :: _) => true
  | _ => false
  end.

Definition set_if_truthy (k : jsstring) (o : option jsstring)
  (styles : CssInJs) : CssInJs :=
  match o with
  | Some v => if truthy o then obj_set k v styles else styles
  | None => styles
  end.

(** The [styles] object built for one configured layout. *)
Definition layoutStyles (config : AreaConfig) : CssInJs :=
  let normalizedConfig := normalizeAreaConfig config in
  let styles :=
    [(lit "display", lit "grid");
     (lit "grid-template-areas",
      formatGridTemplateAreas (rows normalizedConfig))] in
  let styles :=
    set_if_truthy (lit "grid-template-rows")
      (gridTemplateRows normalizedConfig) styles in
  set_if_truthy (lit "grid-template-columns")
    (gridTemplateColumns normalizedConfig) styles.

(** The state of the loop over the configured layouts. *)
Record LayoutLoop : Type := {
  allAreaNames : StringSet;
  gridAreasUtilities : obj CssInJs
}.

Definition layoutStep (st : LayoutLoop) (entry : jsstring * AreaConfig)
  : LayoutLoop :=
  let (name, config) := entry in
  let areaNames := extractAreaNames (rows (normalizeAreaConfig config)) in
  {| allAreaNames :=
       fold_left (fun s areaName => set_add areaName s) areaNames
         (allAreaNames st);
     gridAreasUtilities :=
       obj_set (lit ".grid-areas-" ++ name) (layoutStyles config)
         (gridAreasUtilities st) |}.

Definition entriesOf (options : GridAreasPluginOptions)
  : list (jsstring * AreaConfig) :=
  match gridTemplateAreas options with
  | Some e => e
  | None => []
  end.

Definition layoutLoop (options : GridAreasPluginOptions) : LayoutLoop :=
  fold_left layoutStep (entriesOf options)
    {| allAreaNames := []; gridAreasUtilities := [] |}.

(** The first object handed to [addUtilities]. *)
Definition gridAreasUtilitiesOf (options : GridAreasPluginOptions)
  : obj CssInJs :=
  fold_left
    (fun o keyword =>
       obj_set (lit ".grid-areas-" ++ keyword)
         [(lit "display", lit "grid"); (lit "grid-template-areas", keyword)]
         o)
    CSS_KEYWORDS (gridAreasUtilities (layoutLoop options)).

Definition allAreaNamesOf (options : GridAreasPluginOptions) : StringSet :=
  allAreaNames (layoutLoop options).

(** The second object handed to [addUtilities]. *)
Definition gridAreaUtilities (options : GridAreasPluginOptions)
  : obj CssInJs :=
  let o :=
    fold_left
      (fun o areaName =>
         obj_set (lit ".grid-area-" ++ areaName)
           [(lit "grid-area", areaName)] o)
      (allAreaNamesOf options) [] in
  fold_left
    (fun o keyword =>
       obj_set (lit ".grid-area-" ++ keyword) [(lit "grid-area", keyword)] o)
    GRID_AREA_KEYWORDS o.

(** The six assignments of the loop that builds [lineUtilities]. *)
Definition lineStep (o : obj CssInJs) (areaName : jsstring) : obj CssInJs :=
  let o := obj_set (lit ".row-start-" ++ areaName)
             [(lit "grid-row-start", areaName ++ lit "-start")] o in
  let o := obj_set (lit ".row-end-" ++ areaName)
             [(lit "grid-row-end", areaName ++ lit "-end")] o in
  let o := obj_set (lit ".row-span-" ++ areaName)
             [(lit "grid-row",
               areaName ++ lit "-start / " ++ areaName ++ lit "-end")] o in
  let o := obj_set (lit ".col-start-" ++ areaName)
             [(lit "grid-column-start", areaName ++ lit "-start")] o in
  let o := obj_set (lit ".col-end-" ++ areaName)
             [(lit "grid-column-end", areaName ++ lit "-end")] o in
  obj_set (lit ".col-span-" ++ areaName)
    [(lit "grid-column",
      areaName ++ lit "-start / " ++ areaName ++ lit "-end")] o.

(** The third object handed to [addUtilities]. *)
Definition lineUtilities (options : GridAreasPluginOptions) : obj CssInJs :=
  fold_left lineStep (allAreaNamesOf options) [].

(** The resolvers handed to [matchUtilities]. *)
Definition matchGridAreas (value : jsstring) : CssInJs :=
  [(lit "display", lit "grid");
   (lit "grid-template-areas", parseArbitraryGridAreas value)].

Definition matchGridArea (value : jsstring) : CssInJs :=
  [(lit "grid-area", replaceAll underscore space value)].

Definition matchRowStart (value : jsstring) : CssInJs :=
  [(lit "grid-row-start", value)].

Definition matchRowEnd (value : jsstring) : CssInJs :=
  [(lit "grid-row-end", value)].

Definition matchColStart (value : jsstring) : CssInJs :=
  [(lit "grid-column-start", value)].

Definition matchColEnd (value : jsstring) : CssInJs :=
  [(lit "grid-column-end", value)].

(** What the handler registers with the host: the three calls of
    [addUtilities], in order. *)
Record Registered : Type := {
  reg_gridAreas : obj CssInJs;
  reg_gridArea : obj CssInJs;
  reg_lines : obj CssInJs
}.

(** How a call ends: normally with a value, or abruptly with a thrown
    error, named by its message. *)
Inductive completion (A : Type) : Type :=
| Normal : A -> completion A
| Throw : jsstring -> completion A.

Arguments Throw {A} _.

(** The handler returned by [gridAreasPlugin(options)], run against the
    host.  The source has no [throw] statement and calls only built-ins
    that are total on the types of the configuration, so every run ends
    normally. *)
Definition gridAreasPlugin (options : GridAreasPluginOptions)
  : completion Registered :=
  Normal {| reg_gridAreas := gridAreasUtilitiesOf options;
            reg_gridArea := gridAreaUtilities options;
            reg_lines := lineUtilities options |}.

End GridAreas.

(** ** The behaviour the documentation describes *)

Module Spec.
Import JS Regex GridAreas.

Definition flush (cur : jsstring) : list jsstring :=
  match cur with
  | [] => []
  | _ :: _ => [rev cur]
  end.

(** The cell tokens of a row: its maximal non-empty runs of code units
    that are not white space.  [cur] is the current run, reversed. *)
Fixpoint tokens_go (cur s : jsstring) : list jsstring :=
  match s with
  | [] => flush cur
  | c :: s' =>
      if isWhiteSpace c then flush cur ++ tokens_go [] s'
      else tokens_go (c :: cur) s'
  end.

Definition tokens (row : jsstring) : list jsstring := tokens_go [] row.

(** A row whose cells are separated by single spaces, with no white space
    around them. *)
Definition normalized (row : jsstring) : Prop :=
  join [space] (tokens row) = row.

(** The static layout path as the documentation words it: each row split
    into its tokens, the tokens joined with single spaces, the row quoted,
    the quoted rows joined with single spaces. *)
Definition spec_formatRows (rows : list jsstring) : jsstring :=
  join [space] (List.map (fun row => quoted (join [space] (tokens row))) rows).

(** Reading a [grid-template-areas] value back: split at a double quote
    followed by a space, and remove the double quotes. *)
Definition quoteSpace : jsstring := [dquote; space].

Definition decodeRows (out : jsstring) : list jsstring :=
  List.map (filter (fun c => negb (char_eqb c dquote)))
    (split quoteSpace out).

(** An area name is a piece of a row other than the two markers of an
    empty cell. *)
Definition isAreaName (area : jsstring) : Prop :=
  area <> lit "." /\ area <> lit "..".

(** [s] has a last code unit, and it is not white space. *)
Definition endsNonWs (s : jsstring) : Prop :=
  exists t c, s = t ++ [c] /\ isWhiteSpace c = false.

Definition noLineTerminator (m : jsstring) : bool :=
  forallb (fun c => negb (isLineTerminator c)) m.

(** The whole of [s] is a reference [var(...)]. *)
Definition isVarRef (s : jsstring) : Prop :=
  exists m, s = lit "var(" ++ m ++ lit ")" /\ noLineTerminator m = true.

(** [s] has a reference [var(...)] somewhere. *)
Definition containsVarRef (s : jsstring) : Prop :=
  exists a m b, s = a ++ (lit "var(" ++ m ++ lit ")") ++ b
                /\ noLineTerminator m = true.

(** What the arbitrary-value parser is to emit for the row [r]. *)
Definition rowEmitted (r o : jsstring) : Prop :=
  let t := trim (replaceAll underscore space r) in
  (containsVarRef t -> o = t) /\ (~ containsVarRef t -> o = quoted t).

(** The six line utilities of an area name. *)
Definition lineEntries (X : jsstring) : obj CssInJs :=
  [(lit ".row-start-" ++ X, [(lit "grid-row-start", X ++ lit "-start")]);
   (lit ".row-end-" ++ X, [(lit "grid-row-end", X ++ lit "-end")]);
   (lit ".row-span-" ++ X,
    [(lit "grid-row", X ++ lit "-start / " ++ X ++ lit "-end")]);
   (lit ".col-start-" ++ X, [(lit "grid-column-start", X ++ lit "-start")]);
   (lit ".col-end-" ++ X, [(lit "grid-column-end", X ++ lit "-end")]);
   (lit ".col-span-" ++ X,
    [(lit "grid-column", X ++ lit "-start / " ++ X ++ lit "-end")])].

(** The number of entries of an object under the selector [k]. *)
Definition entriesAt (V : Type) (k : jsstring) (o : obj V) : nat :=
  List.length (filter (fun e => str_eqb (fst e) k) o).

(** A row of an arbitrary value after the substitution of its underscores
    and trimming. *)
Definition cleanRow (r : jsstring) : jsstring :=
  trim (replaceAll underscore space r).

Definition noWhiteSpace (x : jsstring) : bool :=
  forallb (fun c => negb (isWhiteSpace c)) x.

(** A track as the guards of the layout loop see it: a track that is the
    empty string counts as a track that is not given. *)
Definition effectiveTrack (o : option jsstring) : option jsstring :=
  if truthy o then o else None.

(** The bodies of the keyword utilities and of the placement utilities. *)
Definition keywordStyles (keyword : jsstring) : CssInJs :=
  [(lit "display", lit "grid"); (lit "grid-template-areas", keyword)].

Definition areaStyles (x : jsstring) : CssInJs := [(lit "grid-area", x)].

(** [t] is [s] without the white space at its two ends. *)
Definition trimmedFrom (s t : jsstring) : Prop :=
  (exists a b, s = a ++ t ++ b
               /\ forallb isWhiteSpace a = true
               /\ forallb isWhiteSpace b = true)
  /\ (forall c u, t = c :: u -> isWhiteSpace c = false)
  /\ (forall u c, t = u ++ [c] -> isWhiteSpace c = false).

(** [s] is [r] with a space at the place of each underscore. *)
Definition underscoresReplaced (r s : jsstring) : Prop :=
  Forall2 (fun x y => (x = underscore /\ y = space)
                      \/ (x <> underscore /\ y = x)) r s.

(** What the arbitrary-value parser emits for the row [r], said without
    the functions of the code. *)
Definition rowRendered (r o : jsstring) : Prop :=
  exists s t,
    underscoresReplaced r s /\ trimmedFrom s t
    /\ (containsVarRef t -> o = t) /\ (~ containsVarRef t -> o = quoted t).

(** [s] has the letters [var(] and, somewhere after them, a closing
    parenthesis, whatever is between them. *)
Definition hasVarShape (s : jsstring) : Prop :=
  exists a m b, s = a ++ (lit "var(" ++ m ++ lit ")") ++ b.

End Spec.

Import JS Regex GridAreas Spec.

(** * Properties *)

(** ** Strings *)

Section StringFacts.

Lemma char_eqb_eq (a b : char) : char_eqb a b = true <-> a = b.
Proof. apply N.eqb_eq. Qed.

Lemma char_eqb_refl (a : char) : char_eqb a a = true.
Proof. apply N.eqb_refl. Qed.

Lemma str_eqb_eq (a b : jsstring) : str_eqb a b = true <-> a = b.
Proof.
  revert b; induction a as [|x a IH]; intros [|y b]; simpl;
    try (split; [discriminate | discriminate]); try tauto.
  rewrite andb_true_iff, char_eqb_eq, IH.
  split; [intros [-> ->]; reflexivity | intros H; injection H; auto].
Qed.

Lemma str_eqb_refl (a : jsstring) : str_eqb a a = true.
Proof. apply str_eqb_eq; reflexivity. Qed.

Lemma str_eqb_neq (a b : jsstring) : str_eqb a b = false <-> a <> b.
Proof.
  rewrite <- str_eqb_eq. destruct (str_eqb a b); split; congruence.
Qed.

Lemma starts_with_app (p s : jsstring) : starts_with p (p ++ s) = true.
Proof.
  induction p as [|x p IH]; simpl; [reflexivity|].
  now rewrite char_eqb_refl, IH.
Qed.

Lemma starts_with_eq (p s : jsstring) :
  starts_with p s = true <-> exists t, s = p ++ t.
Proof.
  revert s; induction p as [|x p IH]; intros s; simpl.
  - split; [eexists; reflexivity | reflexivity].
  - destruct s as [|y s].
    + split; [discriminate | intros [t H]; discriminate].
    + rewrite andb_true_iff, char_eqb_eq, IH. split.
      * intros [-> [t ->]]. now exists t.
      * intros [t H]. injection H as -> ->. split; [reflexivity | now exists t].
Qed.

Lemma join_cons (sep x : jsstring) (l : list jsstring) :
  l <> [] -> join sep (x :: l) = x ++ sep ++ join sep l.
Proof. destruct l; [congruence | reflexivity]. Qed.

End StringFacts.

(** *** [trim] *)

Section TrimFacts.

Lemma trimStart_blank (s : jsstring) :
  forallb isWhiteSpace s = true -> trimStart s = [].
Proof.
  induction s as [|c s IH]; simpl; [reflexivity|].
  intros H; apply andb_true_iff in H as [Hc Hs]. now rewrite Hc; apply IH.
Qed.

Lemma trim_blank (s : jsstring) :
  forallb isWhiteSpace s = true -> trim s = [].
Proof.
  intros H. unfold trim, trimEnd. now rewrite (trimStart_blank _ H).
Qed.

Lemma trimStart_decomp (s : jsstring) :
  exists w, s = w ++ trimStart s /\ forallb isWhiteSpace w = true.
Proof.
  induction s as [|c s [w [Hs Hw]]]; simpl.
  - now exists [].
  - destruct (isWhiteSpace c) eqn:Hc.
    + exists (c :: w); simpl. rewrite Hc, Hw. split; [congruence | reflexivity].
    + now exists [].
Qed.

Lemma trimStart_head (s : jsstring) c t :
  trimStart s = c :: t -> isWhiteSpace c = false.
Proof.
  induction s as [|x s IH]; simpl; [discriminate|].
  destruct (isWhiteSpace x) eqn:Hx; [exact IH|].
  intros H; injection H as -> _. exact Hx.
Qed.

Lemma forallb_rev (A : Type) (f : A -> bool) (l : list A) :
  forallb f (rev l) = forallb f l.
Proof.
  induction l as [|x l IH]; simpl; [reflexivity|].
  rewrite forallb_app, IH; simpl. now rewrite andb_true_r, andb_comm.
Qed.

Lemma trimEnd_decomp (s : jsstring) :
  exists w, s = trimEnd s ++ w /\ forallb isWhiteSpace w = true.
Proof.
  unfold trimEnd. destruct (trimStart_decomp (rev s)) as [w [Hs Hw]].
  exists (rev w). rewrite forallb_rev. split; [|exact Hw].
  rewrite <- rev_app_distr, <- Hs. now rewrite rev_involutive.
Qed.

Lemma trimEnd_last (s t : jsstring) c :
  trimEnd s = t ++ [c] -> isWhiteSpace c = false.
Proof.
  unfold trimEnd. intros H.
  apply (f_equal (@rev char)) in H.
  rewrite rev_involutive, rev_app_distr in H; simpl in H.
  exact (trimStart_head _ H).
Qed.

Lemma trim_decomp (s : jsstring) :
  exists a b, s = a ++ trim s ++ b
              /\ forallb isWhiteSpace a = true
              /\ forallb isWhiteSpace b = true.
Proof.
  destruct (trimStart_decomp s) as [a [Hs Ha]].
  destruct (trimEnd_decomp (trimStart s)) as [b [Ht Hb]].
  exists a, b. unfold trim. rewrite <- Ht. auto.
Qed.

Lemma trim_last (s t : jsstring) c :
  trim s = t ++ [c] -> isWhiteSpace c = false.
Proof. apply trimEnd_last. Qed.

Lemma trim_head (s t : jsstring) c :
  trim s = c :: t -> isWhiteSpace c = false.
Proof.
  unfold trim. intros H.
  destruct (trimEnd_decomp (trimStart s)) as [w [Hs _]].
  rewrite H in Hs; simpl in Hs. exact (trimStart_head _ Hs).
Qed.

(** A string with no white space at either end is left as it is. *)
Lemma trimStart_id (s : jsstring) c t :
  s = c :: t -> isWhiteSpace c = false -> trimStart s = s.
Proof. intros -> H; simpl. now rewrite H. Qed.

End TrimFacts.

(** *** [split] *)

Section SplitFacts.

Lemma split_go_nonempty sep k cur s : split_go sep k cur s <> [].
Proof.
  revert k cur; induction s as [|c s IH]; intros k cur; simpl;
    [discriminate|].
  destruct k; [|apply IH].
  destruct (starts_with sep (c :: s)); [discriminate | apply IH].
Qed.

Lemma split_go_step (c x : char) (cur s : jsstring) :
  split_go [c] 0 cur (x :: s) =
  if char_eqb c x then rev cur :: split_go [c] 0 [] s
  else split_go [c] 0 (x :: cur) s.
Proof. simpl. now rewrite andb_true_r. Qed.

(** Splitting at a code unit and joining with it gives the string back. *)
Lemma join_split_go (c : char) (cur s : jsstring) :
  join [c] (split_go [c] 0 cur s) = rev cur ++ s.
Proof.
  revert cur; induction s as [|x s IH]; intros cur.
  - simpl. now rewrite app_nil_r.
  - rewrite split_go_step. destruct (char_eqb c x) eqn:E.
    + apply char_eqb_eq in E; subst x.
      rewrite join_cons by apply split_go_nonempty.
      now rewrite IH.
    + rewrite IH; simpl. now rewrite <- app_assoc.
Qed.

Lemma join_split (c : char) (s : jsstring) : join [c] (split [c] s) = s.
Proof. apply (join_split_go c [] s). Qed.

Lemma split_go_free (c : char) (cur s : jsstring) :
  ~ In c cur -> Forall (fun p => ~ In c p) (split_go [c] 0 cur s).
Proof.
  revert cur; induction s as [|x s IH]; intros cur Hcur.
  - simpl. constructor; [|constructor]. now rewrite <- in_rev.
  - rewrite split_go_step. destruct (char_eqb c x) eqn:E.
    + constructor; [now rewrite <- in_rev | apply IH; intros []].
    + apply IH. intros [->|H]; [|auto].
      now rewrite char_eqb_refl in E.
Qed.

Lemma split_free (c : char) (s : jsstring) :
  Forall (fun p => ~ In c p) (split [c] s).
Proof. apply split_go_free; intros []. Qed.

Lemma split_go_plain (c : char) (p cur rest : jsstring) :
  ~ In c p ->
  split_go [c] 0 cur (p ++ rest) = split_go [c] 0 (rev p ++ cur) rest.
Proof.
  revert cur; induction p as [|x p IH]; intros cur Hp; [reflexivity|].
  rewrite <- app_comm_cons, split_go_step.
  destruct (char_eqb c x) eqn:E.
  - apply char_eqb_eq in E; subst. exfalso; apply Hp; now left.
  - rewrite IH by (intros H; apply Hp; now right).
    simpl. now rewrite <- app_assoc.
Qed.

(** The rows of a comma-separated value are found again by [split]. *)
Lemma split_join (c : char) (rows : list jsstring) :
  rows <> [] -> Forall (fun p => ~ In c p) rows ->
  split [c] (join [c] rows) = rows.
Proof.
  unfold split. induction rows as [|r rows IH]; [congruence|].
  intros _ H. inversion H as [|? ? Hr Hrows]; subst.
  destruct rows as [|r' rows].
  - simpl. rewrite <- (app_nil_r r) at 1.
    rewrite split_go_plain by exact Hr; simpl.
    now rewrite app_nil_r, rev_involutive.
  - rewrite join_cons by discriminate.
    rewrite split_go_plain by exact Hr.
    change ([c] ++ join [c] (r' :: rows)) with (c :: join [c] (r' :: rows)).
    rewrite split_go_step, char_eqb_refl.
    rewrite app_nil_r, rev_involutive. f_equal.
    apply IH; [discriminate | exact Hrows].
Qed.

End SplitFacts.

(** *** Cell tokens and [split(/\s+/)] *)

Section TokenFacts.

Lemma endsNonWs_tail c (s : jsstring) :
  endsNonWs (c :: s) -> s = [] \/ endsNonWs s.
Proof.
  intros [t [d [H Hd]]]. destruct t as [|x t]; simpl in H.
  - injection H as _ ->. now left.
  - injection H as _ ->. right. now exists t, d.
Qed.

Lemma endsNonWs_tail_ws c (s : jsstring) :
  endsNonWs (c :: s) -> isWhiteSpace c = true -> endsNonWs s.
Proof.
  intros H Hc. destruct (endsNonWs_tail H) as [->|H']; [|exact H'].
  destruct H as [t [d [H Hd]]]. destruct t as [|x [|y t]]; simpl in H.
  - injection H as ->. congruence.
  - discriminate.
  - discriminate.
Qed.

Lemma splitWs_go_tokens (s : jsstring) :
  (forall cur, cur <> [] -> s = [] \/ endsNonWs s ->
               splitWs_go false cur s = tokens_go cur s)
  /\ (endsNonWs s -> splitWs_go true [] s = tokens_go [] s).
Proof.
  induction s as [|c s [IH1 IH2]]; split.
  - intros cur Hcur _; simpl. destruct cur; [congruence | reflexivity].
  - intros [t [d [H _]]]. destruct t; discriminate.
  - intros cur Hcur [H|H]; [discriminate|]. simpl.
    destruct (isWhiteSpace c) eqn:Hc.
    + rewrite (IH2 (endsNonWs_tail_ws H Hc)).
      destruct cur; [congruence | reflexivity].
    + apply IH1; [discriminate | exact (endsNonWs_tail H)].
  - intros H. simpl. destruct (isWhiteSpace c) eqn:Hc.
    + exact (IH2 (endsNonWs_tail_ws H Hc)).
    + apply IH1; [discriminate | exact (endsNonWs_tail H)].
Qed.

Lemma tokens_go_nonempty (cur s : jsstring) :
  cur <> [] -> tokens_go cur s <> [].
Proof.
  revert cur; induction s as [|c s IH]; intros cur Hcur; simpl.
  - destruct cur; [congruence | discriminate].
  - destruct (isWhiteSpace c).
    + destruct cur; [congruence | discriminate].
    + apply IH; discriminate.
Qed.

Lemma tokens_go_ws_end (cur s w : jsstring) :
  forallb isWhiteSpace w = true -> tokens_go cur (s ++ w) = tokens_go cur s.
Proof.
  intros Hw. revert cur; induction s as [|c s IH]; intros cur; simpl.
  - revert cur; induction w as [|x w IHw]; intros cur; [reflexivity|].
    simpl in *. apply andb_true_iff in Hw as [Hx Hw]. rewrite Hx.
    rewrite (IHw Hw []); simpl. apply app_nil_r.
  - destruct (isWhiteSpace c); now rewrite IH.
Qed.

Lemma tokens_ws_start (w s : jsstring) :
  forallb isWhiteSpace w = true -> tokens (w ++ s) = tokens s.
Proof.
  unfold tokens. induction w as [|x w IH]; [reflexivity|]; simpl.
  intros H; apply andb_true_iff in H as [Hx Hw]. rewrite Hx; simpl. auto.
Qed.

(** White space around a row does not change its tokens. *)
Lemma tokens_trim (s : jsstring) : tokens (trim s) = tokens s.
Proof.
  destruct (trim_decomp s) as [a [b [Hs [Ha Hb]]]].
  rewrite Hs at 2. rewrite tokens_ws_start by exact Ha. unfold tokens.
  now rewrite tokens_go_ws_end by exact Hb.
Qed.

Lemma exists_last_cons (A : Type) (x : A) (l : list A) :
  exists t c, x :: l = t ++ [c].
Proof.
  destruct (@exists_last _ (x :: l)) as [t [c H]]; [discriminate|].
  now exists t, c.
Qed.

(** [row.trim().split(/\s+/)] gives the cell tokens of the row, except
    that a row without any token gives one empty piece. *)
Lemma splitWs_trim (row : jsstring) :
  splitWs (trim row) =
  match tokens row with
  | [] => [[]]
  | ts => ts
  end.
Proof.
  rewrite <- tokens_trim. destruct (trim row) as [|c t] eqn:E;
    [reflexivity|].
  pose proof (trim_head _ E) as Hc.
  assert (Hend : t = [] \/ endsNonWs t).
  { destruct t as [|d t']; [now left | right].
    destruct (exists_last_cons d t') as [u [e Hu]].
    exists u, e. split; [exact Hu|].
    apply (@trim_last row (c :: u) e). rewrite E, Hu. reflexivity. }
  unfold splitWs, tokens; simpl. rewrite Hc.
  destruct (splitWs_go_tokens t) as [H1 _].
  rewrite (H1 [c]) by (discriminate || exact Hend).
  destruct (tokens_go [c] t) eqn:T; [|reflexivity].
  exfalso. revert T. apply tokens_go_nonempty. discriminate.
Qed.

Lemma splitWs_blank (row : jsstring) :
  forallb isWhiteSpace row = true -> splitWs (trim row) = [[]].
Proof. intros H. now rewrite (trim_blank _ H). Qed.

End TokenFacts.

(** ** Regular expressions: the matcher decides the language *)

Ltac inv H := inversion H; subst; clear H.

Section RegexFacts.

Lemma lang_cat_inv (a b : regex) (w : jsstring) :
  lang (Cat a b) w -> exists s t, w = s ++ t /\ lang a s /\ lang b t.
Proof. intros H; inv H. eauto. Qed.

Lemma lang_class_inv (p : char -> bool) (w : jsstring) :
  lang (Class p) w -> exists c, w = [c] /\ p c = true.
Proof. intros H; inv H. eauto. Qed.

Lemma nullable_lang (r : regex) : nullable r = true <-> lang r [].
Proof.
  induction r as [| |p|a IHa b IHb|a IHa b IHb|a IHa]; simpl.
  - split; [discriminate | intros H; inv H].
  - split; [constructor | reflexivity].
  - split; [discriminate | intros H; inv H].
  - rewrite andb_true_iff, IHa, IHb. split.
    + intros [Ha Hb]. exact (L_cat Ha Hb).
    + intros H. apply lang_cat_inv in H as [s [t [E [Hs Ht]]]].
      symmetry in E. apply app_eq_nil in E as [-> ->]. auto.
  - rewrite orb_true_iff, IHa, IHb. split.
    + intros [H|H]; [now apply L_alt_l | now apply L_alt_r].
    + intros H; inv H; auto.
  - split; [constructor | reflexivity].
Qed.

(** A non-empty word of an iteration starts with a non-empty word of the
    iterated expression. *)
Lemma star_cons_inv (a : regex) c (s : jsstring) :
  lang (Star a) (c :: s) ->
  exists s1 s2, s = s1 ++ s2 /\ lang a (c :: s1) /\ lang (Star a) s2.
Proof.
  intros H. remember (Star a) as r eqn:Er. remember (c :: s) as w eqn:Ew.
  revert Er Ew. induction H as [| | | | | |a' u t Hu _ Ht IH];
    try discriminate.
  intros Er Ew. injection Er as ->.
  destruct u as [|x u]; simpl in Ew.
  - apply IH; [reflexivity | exact Ew].
  - injection Ew as -> <-. now exists u, t.
Qed.

Lemma deriv_lang (r : regex) c (s : jsstring) :
  lang (deriv c r) s <-> lang r (c :: s).
Proof.
  revert s; induction r as [| |p|a IHa b IHb|a IHa b IHb|a IHa];
    intros s; simpl.
  - split; intros H; inv H.
  - split; intros H; inv H.
  - destruct (p c) eqn:Hp; split; intros H; inv H.
    + now constructor.
    + constructor.
    + congruence.
  - assert (Hcat : lang (Cat (deriv c a) b) s -> lang (Cat a b) (c :: s)).
    { intros H. apply lang_cat_inv in H as [u [t [-> [Hu Ht]]]].
      apply IHa in Hu. exact (L_cat Hu Ht). }
    assert (Hinv : lang (Cat a b) (c :: s) ->
                   lang (Cat (deriv c a) b) s
                   \/ (lang a [] /\ lang b (c :: s))).
    { intros H. apply lang_cat_inv in H as [u [t [E [Hu Ht]]]].
      destruct u as [|x u]; simpl in E.
      - subst t. now right.
      - injection E as -> ->. left. apply L_cat; [now apply IHa | exact Ht]. }
    destruct (nullable a) eqn:Na; split.
    + intros H; inv H; [now apply Hcat|].
      apply nullable_lang in Na.
      apply (@L_cat a b [] (c :: s)); [exact Na | now apply IHb].
    + intros H. destruct (Hinv H) as [H'|[_ H']].
      * now apply L_alt_l.
      * apply L_alt_r. now apply IHb.
    + exact Hcat.
    + intros H. destruct (Hinv H) as [H'|[H' _]]; [exact H'|].
      apply nullable_lang in H'. congruence.
  - split; intros H; inv H.
    + apply L_alt_l. now apply IHa.
    + apply L_alt_r. now apply IHb.
    + apply L_alt_l. now apply IHa.
    + apply L_alt_r. now apply IHb.
  - split.
    + intros H. apply lang_cat_inv in H as [u [t [-> [Hu Ht]]]].
      apply IHa in Hu. exact (L_star_cons Hu Ht).
    + intros H. destruct (star_cons_inv H) as [u [t [-> [Hu Ht]]]].
      apply L_cat; [now apply IHa | exact Ht].
Qed.

Theorem matches_lang (r : regex) (s : jsstring) :
  matches r s = true <-> lang r s.
Proof.
  revert r; induction s as [|c s IH]; intros r; simpl.
  - apply nullable_lang.
  - rewrite IH. apply deriv_lang.
Qed.

Lemma lang_Lit (p s : jsstring) : lang (Lit p) s <-> s = p.
Proof.
  revert s; induction p as [|x p IH]; intros s; simpl.
  - split; [intros H; now inv H | intros ->; constructor].
  - split.
    + intros H. apply lang_cat_inv in H as [u [t [-> [Hu Ht]]]].
      apply IH in Ht; subst t.
      apply lang_class_inv in Hu as [d [-> Hd]].
      apply char_eqb_eq in Hd; subst. reflexivity.
    + intros ->. apply (@L_cat (Chr x) (Lit p) [x] p).
      * constructor. apply char_eqb_refl.
      * now apply IH.
Qed.

Lemma lang_star_class (p : char -> bool) (s : jsstring) :
  lang (Star (Class p)) s <-> forallb p s = true.
Proof.
  split.
  - induction s as [|c s IH]; intros H; [reflexivity|].
    destruct (star_cons_inv H) as [u [t [-> [Hu Ht]]]].
    apply lang_class_inv in Hu as [d [E Hd]]. injection E as -> ->.
    simpl in *. now rewrite Hd, IH.
  - induction s as [|c s IH]; intros H; [constructor|].
    simpl in H. apply andb_true_iff in H as [Hc Hs].
    apply (@L_star_cons (Class p) [c] s); [now constructor | auto].
Qed.

Lemma lang_any (s : jsstring) : lang (Star Any) s.
Proof.
  apply lang_star_class. induction s; simpl; auto.
Qed.

(** [/^var\(.*\)$/] holds of the references [var(...)] without a line
    terminator inside. *)
Lemma re_var_lang (s : jsstring) : lang re_var s <-> isVarRef s.
Proof.
  unfold re_var, isVarRef, noLineTerminator. split.
  - intros H. apply lang_cat_inv in H as [u [t [-> [Hu Ht]]]].
    apply lang_Lit in Hu; subst u.
    apply lang_cat_inv in Ht as [m [e [-> [Hm He]]]].
    apply lang_star_class in Hm.
    apply lang_class_inv in He as [d [-> Hd]].
    apply char_eqb_eq in Hd; subst d.
    exists m. split; [reflexivity | exact Hm].
  - intros [m [-> Hm]]. apply L_cat; [now apply lang_Lit|].
    apply L_cat; [now apply lang_star_class|].
    constructor. reflexivity.
Qed.

Lemma matches_re_var (s : jsstring) :
  matches re_var s = true <-> isVarRef s.
Proof. rewrite matches_lang. apply re_var_lang. Qed.

(** An unanchored match is a match of some substring. *)
Lemma search_lang (r : regex) (s : jsstring) :
  search r s = true <-> exists a m b, s = a ++ m ++ b /\ lang r m.
Proof.
  unfold search. rewrite matches_lang. split.
  - intros H. apply lang_cat_inv in H as [a [t [-> [Ha Ht]]]].
    apply lang_cat_inv in Ht as [m [b [-> [Hm Hb]]]].
    now exists a, m, b.
  - intros [a [m [b [-> Hm]]]].
    apply L_cat; [apply lang_any|]. apply L_cat; [exact Hm | apply lang_any].
Qed.

Lemma search_re_var (s : jsstring) :
  search re_var s = true <-> containsVarRef s.
Proof.
  rewrite search_lang. unfold containsVarRef. split.
  - intros [a [m [b [-> Hm]]]]. apply re_var_lang in Hm as [x [-> Hx]].
    now exists a, x, b.
  - intros [a [x [b [-> Hx]]]]. exists a, (lit "var(" ++ x ++ lit ")"), b.
    split; [reflexivity|]. apply re_var_lang. now exists x.
Qed.

End RegexFacts.

(** ** Objects and sets *)

Section ObjFacts.

Variable V : Type.

Implicit Types (o : obj V) (k : jsstring) (v : V).

Lemma obj_get_set k k' v o :
  obj_get k' (obj_set k v o) =
  if str_eqb k k' then Some v else obj_get k' o.
Proof.
  induction o as [|[k0 v0] o IH]; simpl; [reflexivity|].
  destruct (str_eqb k0 k) eqn:E0; simpl.
  - apply str_eqb_eq in E0; subst k0. now destruct (str_eqb k k').
  - rewrite IH. destruct (str_eqb k0 k') eqn:E1; [|reflexivity].
    apply str_eqb_eq in E1; subst k0. apply str_eqb_neq in E0.
    assert (Hk : k <> k') by congruence.
    apply str_eqb_neq in Hk. now rewrite Hk.
Qed.

Lemma obj_get_set_same k v o : obj_get k (obj_set k v o) = Some v.
Proof. now rewrite obj_get_set, str_eqb_refl. Qed.

Lemma obj_get_set_other k k' v o :
  k <> k' -> obj_get k' (obj_set k v o) = obj_get k' o.
Proof.
  intros H. rewrite obj_get_set.
  apply str_eqb_neq in H. now rewrite H.
Qed.

Lemma obj_set_fresh k v o :
  ~ In k (obj_keys o) -> obj_set k v o = o ++ [(k, v)].
Proof.
  induction o as [|[k0 v0] o IH]; simpl; [reflexivity|].
  intros H. destruct (str_eqb k0 k) eqn:E.
  - apply str_eqb_eq in E. exfalso; apply H; now left.
  - rewrite IH; [reflexivity | intros H'; apply H; now right].
Qed.

Lemma obj_keys_set_in k v o :
  In k (obj_keys o) -> obj_keys (obj_set k v o) = obj_keys o.
Proof.
  induction o as [|[k0 v0] o IH]; simpl; [intros []|].
  destruct (str_eqb k0 k) eqn:E; simpl; [reflexivity|].
  intros [H|H]; [apply str_eqb_neq in E; congruence|].
  now rewrite IH.
Qed.

Lemma obj_keys_set k v o :
  obj_keys (obj_set k v o) = obj_keys o
  \/ (~ In k (obj_keys o) /\ obj_keys (obj_set k v o) = obj_keys o ++ [k]).
Proof.
  destruct (in_dec str_eq_dec k (obj_keys o)) as [H|H].
  - left. now apply obj_keys_set_in.
  - right. split; [exact H|]. rewrite obj_set_fresh by exact H.
    unfold obj_keys. now rewrite map_app.
Qed.

Lemma NoDup_snoc (A : Type) (x : A) (l : list A) :
  NoDup l -> ~ In x l -> NoDup (l ++ [x]).
Proof.
  intros Hl Hx. apply NoDup_rev in Hl.
  rewrite <- (rev_involutive (l ++ [x])). apply NoDup_rev.
  rewrite rev_app_distr; simpl. constructor; [|exact Hl].
  now rewrite <- in_rev.
Qed.

(** Assigning to a key never makes a key appear twice. *)
Lemma NoDup_obj_set k v o :
  NoDup (obj_keys o) -> NoDup (obj_keys (obj_set k v o)).
Proof.
  intros H. destruct (obj_keys_set k v o) as [->|[Hk ->]]; [exact H|].
  now apply NoDup_snoc.
Qed.

Lemma obj_get_In k v o :
  NoDup (obj_keys o) -> In (k, v) o -> obj_get k o = Some v.
Proof.
  induction o as [|[k0 v0] o IH]; simpl; [intros _ []|].
  intros Hnd [H|H].
  - injection H as -> ->. now rewrite str_eqb_refl.
  - inv Hnd. destruct (str_eqb k0 k) eqn:E; [|now apply IH].
    apply str_eqb_eq in E; subst k0. exfalso.
    match goal with Hn : ~ In _ _ |- _ => apply Hn end.
    apply (in_map fst) in H. exact H.
Qed.

Lemma obj_get_Some_key k v o : obj_get k o = Some v -> In k (obj_keys o).
Proof.
  induction o as [|[k0 v0] o IH]; simpl; [discriminate|].
  destruct (str_eqb k0 k) eqn:E; [|auto].
  apply str_eqb_eq in E. now left.
Qed.

Lemma entriesAt_absent k o : ~ In k (obj_keys o) -> entriesAt k o = 0.
Proof.
  unfold entriesAt. induction o as [|[k0 v0] o IH]; simpl; [reflexivity|].
  intros H. destruct (str_eqb k0 k) eqn:E.
  - apply str_eqb_eq in E. exfalso; apply H; now left.
  - apply IH. intros H'; apply H; now right.
Qed.

(** In an object no selector has more than one entry. *)
Lemma entriesAt_present k o :
  NoDup (obj_keys o) -> In k (obj_keys o) -> entriesAt k o = 1.
Proof.
  induction o as [|[k0 v0] o IH]; simpl; [intros _ []|].
  intros Hnd Hin. inv Hnd. unfold entriesAt in *; simpl.
  destruct (str_eqb k0 k) eqn:E; simpl.
  - apply str_eqb_eq in E; subst k0. f_equal.
    now apply entriesAt_absent.
  - destruct Hin as [H|H]; [apply str_eqb_neq in E; congruence|].
    now apply IH.
Qed.

End ObjFacts.

Section SetFacts.

Implicit Types (s : StringSet) (x y : jsstring).

Lemma set_has_In x s : set_has x s = true <-> In x s.
Proof.
  unfold set_has. rewrite existsb_exists. split.
  - intros [y [Hy E]]. apply str_eqb_eq in E. now subst.
  - intros H. exists x. split; [exact H | apply str_eqb_refl].
Qed.

Lemma In_set_add x y s : In y (set_add x s) <-> In y s \/ y = x.
Proof.
  unfold set_add. destruct (set_has x s) eqn:E.
  - apply set_has_In in E. split; [auto | intros [H| ->]; auto].
  - rewrite in_app_iff; simpl. intuition.
Qed.

Lemma NoDup_set_add x s : NoDup s -> NoDup (set_add x s).
Proof.
  unfold set_add. intros H. destruct (set_has x s) eqn:E; [exact H|].
  apply NoDup_snoc; [exact H|]. rewrite <- set_has_In. congruence.
Qed.

Lemma In_fold_set_add (l : list jsstring) s y :
  In y (fold_left (fun s a => set_add a s) l s) <-> In y s \/ In y l.
Proof.
  revert s; induction l as [|a l IH]; intros s; simpl; [tauto|].
  rewrite IH, In_set_add. intuition.
Qed.

Lemma NoDup_fold_set_add (l : list jsstring) s :
  NoDup s -> NoDup (fold_left (fun s a => set_add a s) l s).
Proof.
  revert s; induction l as [|a l IH]; intros s H; simpl; [exact H|].
  apply IH. now apply NoDup_set_add.
Qed.

Lemma marker_test (area : jsstring) :
  negb (str_eqb area (lit ".")) && negb (str_eqb area (lit "..")) = true
  <-> isAreaName area.
Proof.
  unfold isAreaName.
  rewrite andb_true_iff, !negb_true_iff, !str_eqb_neq. tauto.
Qed.

Lemma In_addAreas (areas : list jsstring) s y :
  In y (addAreas s areas) <-> In y s \/ (In y areas /\ isAreaName y).
Proof.
  unfold addAreas. revert s; induction areas as [|a areas IH]; intros s.
  - simpl. tauto.
  - cbn [fold_left]. rewrite IH.
    destruct (negb (str_eqb a (lit ".")) && negb (str_eqb a (lit "..")))
      eqn:E.
    + apply marker_test in E. rewrite In_set_add. simpl.
      intuition (subst; auto).
    + simpl. split; [tauto|].
      intros [H|[[<-|H] Hy]]; auto.
      apply marker_test in Hy. congruence.
Qed.

Lemma NoDup_addAreas (areas : list jsstring) s :
  NoDup s -> NoDup (addAreas s areas).
Proof.
  unfold addAreas. revert s; induction areas as [|a areas IH]; intros s H;
    [exact H|].
  cbn [fold_left]. apply IH.
  destruct (negb (str_eqb a (lit ".")) && negb (str_eqb a (lit "..")));
    [now apply NoDup_set_add | exact H].
Qed.

End SetFacts.

(** ** The area registry *)

Section Registry.

Lemma In_extract_fold (rows : list jsstring) (s : StringSet) y :
  In y (fold_left
          (fun areaNames row => addAreas areaNames (splitWs (trim row)))
          rows s)
  <-> In y s
      \/ (exists row, In row rows /\ In y (splitWs (trim row)))
         /\ isAreaName y.
Proof.
  revert s; induction rows as [|r rows IH]; intros s; simpl.
  - split; [auto | intros [H|[[row [[] _]] _]]; exact H].
  - rewrite IH, In_addAreas. split.
    + intros [[H|[H Hy]]|[[row [Hr H]] Hy]]; eauto 7.
    + intros [H|[[row [[<-|Hr] H]] Hy]]; eauto 7.
Qed.

Lemma NoDup_extract_fold (rows : list jsstring) (s : StringSet) :
  NoDup s ->
  NoDup (fold_left
           (fun areaNames row => addAreas areaNames (splitWs (trim row)))
           rows s).
Proof.
  revert s; induction rows as [|r rows IH]; intros s H; simpl; [exact H|].
  apply IH. now apply NoDup_addAreas.
Qed.

Lemma In_extractAreaNames (rows : list jsstring) y :
  In y (extractAreaNames rows)
  <-> (exists row, In row rows /\ In y (splitWs (trim row)))
      /\ isAreaName y.
Proof.
  unfold extractAreaNames. rewrite In_extract_fold. simpl. tauto.
Qed.

Lemma NoDup_extractAreaNames (rows : list jsstring) :
  NoDup (extractAreaNames rows).
Proof. apply NoDup_extract_fold. constructor. Qed.

(** The pieces of a row are its cell tokens, and the empty string when the
    row has no token. *)
Lemma In_splitWs_trim (row x : jsstring) :
  In x (splitWs (trim row))
  <-> In x (tokens row) \/ (tokens row = [] /\ x = []).
Proof.
  rewrite splitWs_trim. destruct (tokens row) as [|t ts]; simpl.
  - split; [intros [<-|[]]; auto | intros [[]|[_ ->]]; auto].
  - split; [auto | intros [H|[H _]]; [exact H | discriminate]].
Qed.

Lemma allAreaNames_fold (entries : list (jsstring * AreaConfig))
  (st : LayoutLoop) y :
  In y (allAreaNames (fold_left layoutStep entries st))
  <-> In y (allAreaNames st)
      \/ exists name config,
           In (name, config) entries
           /\ In y (extractAreaNames (rows (normalizeAreaConfig config))).
Proof.
  revert st; induction entries as [|[n c] entries IH]; intros st; simpl.
  - split; [auto | intros [H|[? [? [[] _]]]]; exact H].
  - rewrite IH. cbn [allAreaNames]. rewrite In_fold_set_add. split.
    + intros [[H|H]|[n' [c' [Hin H]]]]; eauto 7.
    + intros [H|[n' [c' [[E|Hin] H]]]]; eauto 7.
      injection E as -> ->. auto.
Qed.

Lemma NoDup_allAreaNames_fold (entries : list (jsstring * AreaConfig))
  (st : LayoutLoop) :
  NoDup (allAreaNames st) ->
  NoDup (allAreaNames (fold_left layoutStep entries st)).
Proof.
  revert st; induction entries as [|[n c] entries IH]; intros st H; simpl;
    [exact H|].
  apply IH. cbn [allAreaNames]. now apply NoDup_fold_set_add.
Qed.

Lemma In_allAreaNamesOf (options : GridAreasPluginOptions) y :
  In y (allAreaNamesOf options)
  <-> exists name config,
        In (name, config) (entriesOf options)
        /\ In y (extractAreaNames (rows (normalizeAreaConfig config))).
Proof.
  unfold allAreaNamesOf, layoutLoop. rewrite allAreaNames_fold. simpl. tauto.
Qed.

Lemma NoDup_allAreaNamesOf (options : GridAreasPluginOptions) :
  NoDup (allAreaNamesOf options).
Proof. apply NoDup_allAreaNames_fold. constructor. Qed.

End Registry.

(** ** The registered utilities *)

Section Utilities.

(** A loop that assigns [p ++ k] for each [k] of a list leaves, under the
    selector of each [k], what was assigned for it. *)
Lemma fold_set_get (V : Type) (p : jsstring) (f : jsstring -> V)
  (ks : list jsstring) (o : obj V) (x : jsstring) :
  In x ks \/ obj_get (p ++ x) o = Some (f x) ->
  obj_get (p ++ x)
    (fold_left (fun o k => obj_set (p ++ k) (f k) o) ks o) = Some (f x).
Proof.
  revert o; induction ks as [|k ks IH]; intros o; simpl.
  - intros [[]|H]; exact H.
  - intros H. apply IH.
    destruct (str_eq_dec k x) as [->|Hk].
    + right. apply obj_get_set_same.
    + destruct H as [[H|H]|H]; [congruence | now left | right].
      rewrite obj_get_set_other; [exact H|].
      intros E. apply app_inv_head in E. congruence.
Qed.

Lemma fold_set_get_other (V : Type) (p : jsstring) (f : jsstring -> V)
  (ks : list jsstring) (o : obj V) (sel : jsstring) :
  (forall k, In k ks -> p ++ k <> sel) ->
  obj_get sel (fold_left (fun o k => obj_set (p ++ k) (f k) o) ks o)
  = obj_get sel o.
Proof.
  revert o; induction ks as [|k ks IH]; intros o H; simpl; [reflexivity|].
  rewrite IH by (intros k' Hk'; apply H; now right).
  apply obj_get_set_other. apply H. now left.
Qed.

Lemma NoDup_fold_set (V : Type) (g : jsstring -> jsstring)
  (f : jsstring -> V) (ks : list jsstring) (o : obj V) :
  NoDup (obj_keys o) ->
  NoDup (obj_keys (fold_left (fun o k => obj_set (g k) (f k) o) ks o)).
Proof.
  revert o; induction ks as [|k ks IH]; intros o H; simpl; [exact H|].
  apply IH. now apply NoDup_obj_set.
Qed.

Lemma NoDup_layout_fold (entries : list (jsstring * AreaConfig))
  (st : LayoutLoop) :
  NoDup (obj_keys (gridAreasUtilities st)) ->
  NoDup (obj_keys (gridAreasUtilities (fold_left layoutStep entries st))).
Proof.
  revert st; induction entries as [|[n c] entries IH]; intros st H; simpl;
    [exact H|].
  apply IH. cbn [gridAreasUtilities]. now apply NoDup_obj_set.
Qed.

Lemma NoDup_gridAreasUtilitiesOf (options : GridAreasPluginOptions) :
  NoDup (obj_keys (gridAreasUtilitiesOf options)).
Proof.
  unfold gridAreasUtilitiesOf.
  apply (NoDup_fold_set (fun k => lit ".grid-areas-" ++ k)).
  apply NoDup_layout_fold. constructor.
Qed.

Lemma NoDup_gridAreaUtilities (options : GridAreasPluginOptions) :
  NoDup (obj_keys (gridAreaUtilities options)).
Proof.
  unfold gridAreaUtilities.
  apply (NoDup_fold_set (fun k => lit ".grid-area-" ++ k)).
  apply (NoDup_fold_set (fun k => lit ".grid-area-" ++ k)).
  constructor.
Qed.

(** Every area name and every keyword of the [grid-area] family has its
    placement utility. *)
Lemma gridAreaUtilities_get (options : GridAreasPluginOptions) x :
  In x (allAreaNamesOf options) \/ In x GRID_AREA_KEYWORDS ->
  obj_get (lit ".grid-area-" ++ x) (gridAreaUtilities options)
  = Some [(lit "grid-area", x)].
Proof.
  intros H. unfold gridAreaUtilities.
  apply (fold_set_get (lit ".grid-area-")
           (fun k => [(lit "grid-area", k)])).
  destruct H as [H|H]; [right | now left].
  apply (fold_set_get (lit ".grid-area-")
           (fun k => [(lit "grid-area", k)])).
  now left.
Qed.

(** Selectors of different families, or of different area names, differ. *)
Lemma lineEntries_keys_inj (X Y k : jsstring) :
  In k (obj_keys (lineEntries X)) -> In k (obj_keys (lineEntries Y)) ->
  X = Y.
Proof.
  cbn [lineEntries obj_keys List.map fst In].
  intros HX HY.
  repeat (destruct HX as [HX|HX]; [|]); try contradiction;
    repeat (destruct HY as [HY|HY]; [|]); try contradiction;
    subst k; cbn in HY; congruence.
Qed.

Lemma lineEntries_keys_NoDup (X : jsstring) :
  NoDup (obj_keys (lineEntries X)).
Proof.
  cbn [lineEntries obj_keys List.map fst].
  repeat (constructor;
          [cbn [In]; intros H;
           repeat (destruct H as [H|H]; [cbn in H; congruence|]); exact H|]).
  constructor.
Qed.

Lemma obj_keys_app (V : Type) (a b : obj V) :
  obj_keys (a ++ b) = obj_keys a ++ obj_keys b.
Proof. apply map_app. Qed.

Ltac set_fresh o Hfresh :=
  lazymatch goal with
  | |- context [@obj_set ?V ?k ?v o] =>
      rewrite (@obj_set_fresh V k v o);
      [| apply Hfresh; cbn [In]; tauto]
  | |- context [@obj_set ?V ?k ?v (@app ?A o ?l)] =>
      rewrite (@obj_set_fresh V k v (@app A o l));
      [ rewrite <- app_assoc; cbn [app]
      | let Hin := fresh "Hin" in
        rewrite obj_keys_app, in_app_iff; cbn [obj_keys List.map fst];
        intros [Hin|Hin];
        [ revert Hin; apply Hfresh; cbn [In]; tauto
        | cbn [In] in Hin;
          repeat (destruct Hin as [Hin|Hin]; [cbn in Hin; congruence|]);
          exact Hin ] ]
  end.

Lemma lineStep_fresh (o : obj CssInJs) (X : jsstring) :
  (forall k, In k (obj_keys (lineEntries X)) -> ~ In k (obj_keys o)) ->
  lineStep o X = o ++ lineEntries X.
Proof.
  intros Hfresh. unfold lineStep, lineEntries in *.
  cbn [obj_keys List.map fst] in Hfresh.
  do 6 set_fresh o Hfresh.
  reflexivity.
Qed.

Lemma In_keys_flat_lineEntries (names : list jsstring) k :
  In k (obj_keys (flat_map lineEntries names)) ->
  exists Y, In Y names /\ In k (obj_keys (lineEntries Y)).
Proof.
  unfold obj_keys. rewrite in_map_iff.
  intros [[k' v] [E H]]. simpl in E; subst k'.
  apply in_flat_map in H as [Y [HY H]].
  exists Y. split; [exact HY|]. apply (in_map fst) in H. exact H.
Qed.

Lemma lineUtilities_fold (names done : list jsstring) :
  NoDup (done ++ names) ->
  fold_left lineStep names (flat_map lineEntries done)
  = flat_map lineEntries (done ++ names).
Proof.
  revert done; induction names as [|X names IH]; intros done Hnd; simpl.
  - now rewrite app_nil_r.
  - rewrite lineStep_fresh.
    + replace (flat_map lineEntries done ++ lineEntries X)
        with (flat_map lineEntries (done ++ [X]))
        by (rewrite flat_map_app; cbn [flat_map]; now rewrite app_nil_r).
      rewrite IH; rewrite <- app_assoc; [reflexivity | exact Hnd].
    + intros k HX Hk.
      apply In_keys_flat_lineEntries in Hk as [Y [HY Hk]].
      rewrite (lineEntries_keys_inj HX Hk) in Hnd.
      apply NoDup_remove_2 in Hnd. apply Hnd.
      apply in_or_app. now left.
Qed.

Lemma lineUtilities_flat (options : GridAreasPluginOptions) :
  lineUtilities options = flat_map lineEntries (allAreaNamesOf options).
Proof.
  unfold lineUtilities.
  apply (lineUtilities_fold (allAreaNamesOf options) []).
  apply NoDup_allAreaNamesOf.
Qed.

Lemma NoDup_lineStep (o : obj CssInJs) (X : jsstring) :
  NoDup (obj_keys o) -> NoDup (obj_keys (lineStep o X)).
Proof.
  intros H. unfold lineStep. now repeat apply NoDup_obj_set.
Qed.

Lemma NoDup_lineUtilities (options : GridAreasPluginOptions) :
  NoDup (obj_keys (lineUtilities options)).
Proof.
  unfold lineUtilities. generalize (allAreaNamesOf options) as names.
  assert (H : NoDup (obj_keys (@nil (jsstring * CssInJs))))
    by constructor.
  revert H. generalize (@nil (jsstring * CssInJs)) as o.
  intros o H names; revert o H.
  induction names as [|X names IH]; intros o H; simpl; [exact H|].
  apply IH. now apply NoDup_lineStep.
Qed.

Lemma flat_lineEntries_length (names : list jsstring) :
  List.length (flat_map lineEntries names) = 6 * List.length names.
Proof.
  induction names as [|X names IH]; [reflexivity|].
  cbn [flat_map]. rewrite length_app, IH. simpl. lia.
Qed.

End Utilities.

Section UtilityLookups.

Variable options : GridAreasPluginOptions.

Lemma lineUtilities_get (X sel : jsstring) (body : CssInJs) :
  In X (allAreaNamesOf options) -> In (sel, body) (lineEntries X) ->
  obj_get sel (lineUtilities options) = Some body.
Proof.
  intros HX Hsel. apply obj_get_In; [apply NoDup_lineUtilities|].
  rewrite lineUtilities_flat. apply in_flat_map. now exists X.
Qed.

Lemma lineUtilities_once (X sel : jsstring) (body : CssInJs) :
  In X (allAreaNamesOf options) -> In (sel, body) (lineEntries X) ->
  entriesAt sel (lineUtilities options) = 1.
Proof.
  intros HX Hsel. apply entriesAt_present; [apply NoDup_lineUtilities|].
  apply obj_get_Some_key with (v := body). now apply lineUtilities_get with X.
Qed.

Lemma gridAreasUtilitiesOf_keyword (keyword : jsstring) :
  In keyword CSS_KEYWORDS ->
  obj_get (lit ".grid-areas-" ++ keyword) (gridAreasUtilitiesOf options)
  = Some [(lit "display", lit "grid");
          (lit "grid-template-areas", keyword)].
Proof.
  intros H. unfold gridAreasUtilitiesOf.
  apply (fold_set_get (lit ".grid-areas-")
           (fun k => [(lit "display", lit "grid");
                      (lit "grid-template-areas", k)])).
  now left.
Qed.

End UtilityLookups.

(** C6. For every discovered area name [X] the object of line utilities
    has exactly the six entries of [lineEntries X]: [.row-start-X] with
    [grid-row-start: X-start], [.row-end-X] with [grid-row-end: X-end],
    [.row-span-X] with [grid-row: X-start / X-end], and the same three for
    columns; each selector has one entry, and the object is made of these
    groups of six and of nothing else. *)
Theorem line_utilities_six (options : GridAreasPluginOptions)
  (X : jsstring) :
  In X (allAreaNamesOf options) ->
  let lu := lineUtilities options in
  obj_get (lit ".row-start-" ++ X) lu
    = Some [(lit "grid-row-start", X ++ lit "-start")]
  /\ obj_get (lit ".row-end-" ++ X) lu
     = Some [(lit "grid-row-end", X ++ lit "-end")]
  /\ obj_get (lit ".row-span-" ++ X) lu
     = Some [(lit "grid-row", X ++ lit "-start / " ++ X ++ lit "-end")]
  /\ obj_get (lit ".col-start-" ++ X) lu
     = Some [(lit "grid-column-start", X ++ lit "-start")]
  /\ obj_get (lit ".col-end-" ++ X) lu
     = Some [(lit "grid-column-end", X ++ lit "-end")]
  /\ obj_get (lit ".col-span-" ++ X) lu
     = Some [(lit "grid-column", X ++ lit "-start / " ++ X ++ lit "-end")]
  /\ Forall (fun sel => entriesAt sel lu = 1) (obj_keys (lineEntries X))
  /\ lu = flat_map lineEntries (allAreaNamesOf options)
  /\ List.length lu = 6 * List.length (allAreaNamesOf options).
Proof.
  intros HX lu. subst lu.
  repeat (split;
          [apply lineUtilities_get with X;
           [exact HX | cbn [lineEntries In]; tauto]|]).
  split; [|split].
  - apply Forall_forall. intros sel Hsel.
    apply in_map_iff in Hsel as [[sel' body] [E Hin]]. simpl in E; subst sel'.
    now apply lineUtilities_once with X body.
  - apply lineUtilities_flat.
  - rewrite lineUtilities_flat. apply flat_lineEntries_length.
Qed.

Lemma line_utilities_six_witness :
  let options :=
    {| gridTemplateAreas := Some [(lit "app", RowsOnly [lit "main side"])] |}
  in
  In (lit "main") (allAreaNamesOf options)
  /\ obj_get (lit ".row-span-main") (lineUtilities options)
     = Some [(lit "grid-row", lit "main-start / main-end")]
  /\ List.length (lineUtilities options) = 12.
Proof.
  intros options.
  assert (H : In (lit "main") (allAreaNamesOf options))
    by (vm_compute; auto).
  split; [exact H|].
  destruct (line_utilities_six options (lit "main") H)
    as [_ [_ [Hspan [_ [_ [_ [_ [_ Hlen]]]]]]]].
  split; [exact Hspan | exact Hlen].
Defined.

(** C7. Whatever layouts are configured, each of the CSS-wide keywords
    [none], [inherit], [initial], [revert], [revert-layer] and [unset] has
    one entry in the object of layout utilities, with [display: grid] and
    the keyword as [grid-template-areas], and each of these and [auto]
    has one entry in the object of placement utilities, with the keyword
    as [grid-area]; no selector has two entries in either object, also
    when a layout or an area has the name of a keyword. *)
Theorem keyword_utilities_once (options : GridAreasPluginOptions) :
  Forall
    (fun keyword =>
       obj_get (lit ".grid-areas-" ++ keyword) (gridAreasUtilitiesOf options)
       = Some [(lit "display", lit "grid");
               (lit "grid-template-areas", keyword)]
       /\ entriesAt (lit ".grid-areas-" ++ keyword)
            (gridAreasUtilitiesOf options) = 1)
    [lit "none"; lit "inherit"; lit "initial"; lit "revert";
     lit "revert-layer"; lit "unset"]
  /\ Forall
       (fun keyword =>
          obj_get (lit ".grid-area-" ++ keyword) (gridAreaUtilities options)
          = Some [(lit "grid-area", keyword)]
          /\ entriesAt (lit ".grid-area-" ++ keyword)
               (gridAreaUtilities options) = 1)
       [lit "auto"; lit "none"; lit "inherit"; lit "initial"; lit "revert";
        lit "revert-layer"; lit "unset"]
  /\ NoDup (obj_keys (gridAreasUtilitiesOf options))
  /\ NoDup (obj_keys (gridAreaUtilities options)).
Proof.
  split; [|split; [|split]].
  - apply Forall_forall. intros keyword Hk.
    pose proof (gridAreasUtilitiesOf_keyword options Hk) as Hget.
    split; [exact Hget|].
    apply entriesAt_present; [apply NoDup_gridAreasUtilitiesOf|].
    exact (obj_get_Some_key _ _ Hget).
  - apply Forall_forall. intros keyword Hk.
    assert (Hget := gridAreaUtilities_get options (or_intror Hk)).
    split; [exact Hget|].
    apply entriesAt_present; [apply NoDup_gridAreaUtilities|].
    exact (obj_get_Some_key _ _ Hget).
  - apply NoDup_gridAreasUtilitiesOf.
  - apply NoDup_gridAreaUtilities.
Qed.

(** C10. A configured layout with an empty or white-space-only row makes
    the empty string an area name: trimming and splitting the row gives
    one empty piece, [extractAreaNames] keeps it, and the plugin registers
    utilities whose selector ends right after the hyphen: [.grid-area-],
    [.row-start-], [.col-span-] and the like. *)
Theorem blank_row_empty_area_name (options : GridAreasPluginOptions)
  (name : jsstring) (config : AreaConfig) (row : jsstring) :
  In (name, config) (entriesOf options) ->
  In row (rows (normalizeAreaConfig config)) ->
  forallb isWhiteSpace row = true ->
  splitWs (trim row) = [[]]
  /\ In [] (extractAreaNames (rows (normalizeAreaConfig config)))
  /\ In [] (allAreaNamesOf options)
  /\ obj_get (lit ".grid-area-") (gridAreaUtilities options)
     = Some [(lit "grid-area", [])]
  /\ obj_get (lit ".row-start-") (lineUtilities options)
     = Some [(lit "grid-row-start", lit "-start")]
  /\ obj_get (lit ".row-end-") (lineUtilities options)
     = Some [(lit "grid-row-end", lit "-end")]
  /\ obj_get (lit ".col-span-") (lineUtilities options)
     = Some [(lit "grid-column", lit "-start / -end")].
Proof.
  intros Hentry Hrow Hblank.
  pose proof (splitWs_blank _ Hblank) as Hsplit.
  assert (Hex : In [] (extractAreaNames (rows (normalizeAreaConfig config)))).
  { apply In_extractAreaNames. split.
    - exists row. split; [exact Hrow|]. rewrite Hsplit. now left.
    - split; discriminate. }
  assert (Hall : In [] (allAreaNamesOf options)).
  { apply In_allAreaNamesOf. now exists name, config. }
  split; [exact Hsplit|]. split; [exact Hex|]. split; [exact Hall|].
  split.
  - rewrite <- (app_nil_r (lit ".grid-area-")).
    apply gridAreaUtilities_get. now left.
  - repeat split;
      (apply lineUtilities_get with (X := []);
       [exact Hall | cbn [lineEntries In]; cbn; tauto]).
Qed.

Lemma blank_row_empty_area_name_witness :
  let options :=
    {| gridTemplateAreas :=
         Some [(lit "app", RowsOnly [lit "head"; lit "  "])] |} in
  In [] (allAreaNamesOf options)
  /\ obj_get (lit ".grid-area-") (gridAreaUtilities options)
     = Some [(lit "grid-area", [])].
Proof.
  intros options.
  destruct (@blank_row_empty_area_name options (lit "app")
              (RowsOnly [lit "head"; lit "  "]) (lit "  "))
    as [_ [_ [Hall [Hget _]]]].
  - simpl. now left.
  - simpl. auto.
  - reflexivity.
  - split; [exact Hall | exact Hget].
Defined.

(** ** The static layout path *)

Section StaticPath.

Lemma split_sep_plain (p cur rest : jsstring) :
  ~ In dquote p ->
  split_go quoteSpace 0 cur (p ++ rest)
  = split_go quoteSpace 0 (rev p ++ cur) rest.
Proof.
  revert cur; induction p as [|x p IH]; intros cur Hp; [reflexivity|].
  rewrite <- app_comm_cons. unfold quoteSpace; cbn [split_go starts_with].
  destruct (char_eqb dquote x) eqn:E.
  - apply char_eqb_eq in E. exfalso; apply Hp; now left.
  - cbn [andb]. rewrite IH by (intros H; apply Hp; now right).
    simpl. now rewrite <- app_assoc.
Qed.

Lemma split_sep_open (cur s : jsstring) :
  starts_with [space] s = false ->
  split_go quoteSpace 0 cur (dquote :: s)
  = split_go quoteSpace 0 (dquote :: cur) s.
Proof.
  intros H. cbn [split_go].
  change (starts_with quoteSpace (dquote :: s)) with (starts_with [space] s).
  now rewrite H.
Qed.

Lemma split_sep_close (cur s : jsstring) :
  split_go quoteSpace 0 cur (dquote :: space :: s)
  = rev cur :: split_go quoteSpace 0 [] s.
Proof. reflexivity. Qed.

Lemma strip_quotes (r : jsstring) :
  ~ In dquote r -> filter (fun c => negb (char_eqb c dquote)) r = r.
Proof.
  induction r as [|x r IH]; intros H; simpl; [reflexivity|].
  destruct (char_eqb x dquote) eqn:E.
  - apply char_eqb_eq in E. exfalso; apply H; now left.
  - simpl. rewrite IH; [reflexivity | intros H'; apply H; now right].
Qed.

Lemma starts_with_space_app (r t : jsstring) :
  starts_with [space] r = false ->
  starts_with [space] (r ++ dquote :: t) = false.
Proof. destruct r; [reflexivity | exact (fun H => H)]. Qed.

(** Reading back the value made from rows without double quotes and
    without a space in front gives the rows. *)
Lemma decode_format (rowList : list jsstring) :
  rowList <> [] ->
  Forall (fun r => ~ In dquote r /\ starts_with [space] r = false) rowList ->
  decodeRows (formatGridTemplateAreas rowList) = rowList.
Proof.
  unfold decodeRows, formatGridTemplateAreas, split.
  induction rowList as [|r rl IH]; [congruence|]. intros _ H.
  inversion H as [|? ? [Hq Hs] Hrl]; subst.
  destruct rl as [|r' rl].
  - cbn [List.map join]. unfold quoted.
    rewrite split_sep_open by now apply starts_with_space_app.
    rewrite split_sep_plain by exact Hq.
    unfold quoteSpace; cbn [split_go starts_with].
    rewrite char_eqb_refl. cbn [andb split_go List.map rev].
    rewrite rev_app_distr, rev_involutive. cbn [rev app].
    cbn [filter]. rewrite char_eqb_refl. cbn [negb]. f_equal.
    rewrite filter_app, strip_quotes by exact Hq. cbn [filter].
    rewrite char_eqb_refl. cbn [negb]. apply app_nil_r.
  - change (List.map quoted (r :: r' :: rl))
      with (quoted r :: List.map quoted (r' :: rl)).
    rewrite join_cons by discriminate.
    unfold quoted at 1. rewrite <- app_comm_cons.
    rewrite split_sep_open
      by (rewrite <- app_assoc; now apply starts_with_space_app).
    rewrite <- !app_assoc. rewrite split_sep_plain by exact Hq.
    cbn [app]. rewrite split_sep_close.
    cbn [List.map]. f_equal.
    + rewrite rev_app_distr, rev_involutive. cbn [rev app filter].
      rewrite char_eqb_refl. cbn [negb]. now apply strip_quotes.
    + apply IH; [discriminate | exact Hrl].
Qed.

Lemma format_normalized (rowList : list jsstring) :
  Forall normalized rowList ->
  formatGridTemplateAreas rowList = spec_formatRows rowList.
Proof.
  intros H. unfold formatGridTemplateAreas, spec_formatRows. f_equal.
  apply map_ext_in. intros r Hr.
  rewrite Forall_forall in H. now rewrite (H r Hr).
Qed.

End StaticPath.

(** The static layout path does not normalise white space: two spaces
    between two cells stay two spaces in the value, where the documented
    rendering has one, and reading the value back gives the row as it was
    written. *)
Lemma format_not_normalizing :
  formatGridTemplateAreas [lit "a  b"] = quoted (lit "a  b")
  /\ spec_formatRows [lit "a  b"] = quoted (lit "a b")
  /\ formatGridTemplateAreas [lit "a  b"] <> spec_formatRows [lit "a  b"]
  /\ decodeRows (formatGridTemplateAreas [lit "a  b"])
     <> [join [space] (tokens (lit "a  b"))].
Proof.
  split; [reflexivity|]. split; [reflexivity|].
  split; vm_compute; discriminate.
Qed.

(** C1, amended. The static layout path puts each row, as it is written,
    between double quotes and joins the quoted rows with single spaces in
    their order; it neither splits a row nor collapses its white space.
    When every row is already normalised (its tokens separated by single
    spaces, nothing around them) the value is the documented one; and for
    a non-empty sequence of rows without a double quote and without a
    space in front, splitting the value at quote boundaries and removing
    the quotes gives the rows back. *)
Theorem format_rows_verbatim (rowList : list jsstring) :
  formatGridTemplateAreas rowList = join [space] (List.map quoted rowList)
  /\ (Forall normalized rowList ->
      formatGridTemplateAreas rowList = spec_formatRows rowList)
  /\ (rowList <> [] ->
      Forall (fun r => ~ In dquote r /\ starts_with [space] r = false)
        rowList ->
      decodeRows (formatGridTemplateAreas rowList) = rowList).
Proof.
  split; [reflexivity|]. split.
  - apply format_normalized.
  - apply decode_format.
Qed.

Lemma format_rows_verbatim_witness :
  let rowList := [lit "header header"; lit "sidebar main"] in
  formatGridTemplateAreas rowList = spec_formatRows rowList
  /\ decodeRows (formatGridTemplateAreas rowList) = rowList.
Proof.
  intros rowList.
  destruct (format_rows_verbatim rowList) as [_ [Hnorm Hdec]].
  split.
  - apply Hnorm. repeat constructor.
  - apply Hdec; [discriminate|].
    repeat constructor; vm_compute; intuition discriminate.
Defined.

(** ** Configured layouts *)

Section Layouts.

Lemma layout_fold_get_other (entries : list (jsstring * AreaConfig))
  (st : LayoutLoop) (name : jsstring) :
  ~ In name (List.map fst entries) ->
  obj_get (lit ".grid-areas-" ++ name)
    (gridAreasUtilities (fold_left layoutStep entries st))
  = obj_get (lit ".grid-areas-" ++ name) (gridAreasUtilities st).
Proof.
  revert st; induction entries as [|[n c] entries IH]; intros st H;
    [reflexivity|].
  simpl in H. cbn [fold_left]. rewrite IH by tauto.
  cbn [layoutStep gridAreasUtilities]. apply obj_get_set_other.
  intros E. apply app_inv_head in E. tauto.
Qed.

(** The utility of a layout is the [styles] object built for it, unless a
    later layout or a keyword takes its selector. *)
Lemma layout_utility_registered (options : GridAreasPluginOptions)
  (before after : list (jsstring * AreaConfig)) (name : jsstring)
  (config : AreaConfig) :
  entriesOf options = before ++ (name, config) :: after ->
  ~ In name (List.map fst after) ->
  ~ In name CSS_KEYWORDS ->
  obj_get (lit ".grid-areas-" ++ name) (gridAreasUtilitiesOf options)
  = Some (layoutStyles config).
Proof.
  intros He Hafter Hkw. unfold gridAreasUtilitiesOf.
  rewrite fold_set_get_other.
  - unfold layoutLoop. rewrite He, fold_left_app. cbn [fold_left].
    rewrite layout_fold_get_other by exact Hafter.
    cbn [layoutStep gridAreasUtilities]. apply obj_get_set_same.
  - intros k Hk E. apply app_inv_head in E. congruence.
Qed.

Lemma layoutStyles_keys (config : AreaConfig) :
  let g := normalizeAreaConfig config in
  obj_keys (layoutStyles config)
  = [lit "display"; lit "grid-template-areas"]
    ++ (if truthy (gridTemplateRows g)
        then [lit "grid-template-rows"] else [])
    ++ (if truthy (gridTemplateColumns g)
        then [lit "grid-template-columns"] else []).
Proof.
  unfold layoutStyles.
  destruct (normalizeAreaConfig config) as [r [[|a tr]|] [[|b tc]|]];
    reflexivity.
Qed.

Lemma layoutStyles_rows (config : AreaConfig) (v : jsstring) :
  obj_get (lit "grid-template-rows") (layoutStyles config) = Some v
  <-> gridTemplateRows (normalizeAreaConfig config) = Some v /\ v <> [].
Proof.
  unfold layoutStyles.
  destruct (normalizeAreaConfig config) as [r [[|a tr]|] [[|b tc]|]];
    cbn; (split; [intros H | intros [H Hv]]);
    try discriminate; try congruence;
    (split; [exact H | injection H as <-; discriminate]).
Qed.

Lemma layoutStyles_columns (config : AreaConfig) (v : jsstring) :
  obj_get (lit "grid-template-columns") (layoutStyles config) = Some v
  <-> gridTemplateColumns (normalizeAreaConfig config) = Some v /\ v <> [].
Proof.
  unfold layoutStyles.
  destruct (normalizeAreaConfig config) as [r [[|a tr]|] [[|b tc]|]];
    cbn; (split; [intros H | intros [H Hv]]);
    try discriminate; try congruence;
    (split; [exact H | injection H as <-; discriminate]).
Qed.

Lemma layoutStyles_fixed (config : AreaConfig) :
  obj_get (lit "display") (layoutStyles config) = Some (lit "grid")
  /\ obj_get (lit "grid-template-areas") (layoutStyles config)
     = Some (formatGridTemplateAreas (rows (normalizeAreaConfig config))).
Proof.
  unfold layoutStyles.
  destruct (normalizeAreaConfig config) as [r [[|a tr]|] [[|b tc]|]];
    split; reflexivity.
Qed.

End Layouts.

(** A track given as the empty string is left out like a track that is not
    given; and the utility of a layout named after a keyword is the
    keyword's, without the tracks of the layout. *)
Lemma track_provided_but_absent :
  (let config :=
     FullArea {| rows := [lit "a b"];
                 gridTemplateRows := Some [];
                 gridTemplateColumns := Some (lit "1fr 1fr") |} in
   gridTemplateRows (normalizeAreaConfig config) <> None
   /\ obj_get (lit "grid-template-rows") (layoutStyles config) = None)
  /\ (let config :=
        FullArea {| rows := [lit "a b"];
                    gridTemplateRows := Some (lit "auto");
                    gridTemplateColumns := None |} in
      let options := {| gridTemplateAreas := Some [(lit "none", config)] |} in
      gridTemplateRows (normalizeAreaConfig config) <> None
      /\ obj_get (lit ".grid-areas-none") (gridAreasUtilitiesOf options)
         = Some [(lit "display", lit "grid");
                 (lit "grid-template-areas", lit "none")]).
Proof.
  split; (split; [discriminate | reflexivity]).
Qed.

(** C8, amended. For every configured layout whose name is not a CSS-wide
    keyword, the utility [.grid-areas-<name>] sets [display: grid] and
    [grid-template-areas], and has [grid-template-rows] (respectively
    [grid-template-columns]) exactly when the track is given and is not
    the empty string, with the given value; otherwise the property is not
    there at all, and nothing else is.  (The names of the entries of an
    object are distinct; the second hypothesis says so for the entries
    after the layout.) *)
Theorem layout_utility_tracks (options : GridAreasPluginOptions)
  (before after : list (jsstring * AreaConfig)) (name : jsstring)
  (config : AreaConfig) :
  entriesOf options = before ++ (name, config) :: after ->
  ~ In name (List.map fst after) ->
  ~ In name CSS_KEYWORDS ->
  let g := normalizeAreaConfig config in
  exists styles,
    obj_get (lit ".grid-areas-" ++ name) (gridAreasUtilitiesOf options)
    = Some styles
    /\ obj_get (lit "display") styles = Some (lit "grid")
    /\ obj_get (lit "grid-template-areas") styles
       = Some (formatGridTemplateAreas (rows g))
    /\ (forall v, obj_get (lit "grid-template-rows") styles = Some v
                  <-> gridTemplateRows g = Some v /\ v <> [])
    /\ (forall v, obj_get (lit "grid-template-columns") styles = Some v
                  <-> gridTemplateColumns g = Some v /\ v <> [])
    /\ obj_keys styles
       = [lit "display"; lit "grid-template-areas"]
         ++ (if truthy (gridTemplateRows g)
             then [lit "grid-template-rows"] else [])
         ++ (if truthy (gridTemplateColumns g)
             then [lit "grid-template-columns"] else []).
Proof.
  intros He Hafter Hkw g. exists (layoutStyles config).
  split; [now apply layout_utility_registered with before after|].
  destruct (layoutStyles_fixed config) as [Hd Ha].
  split; [exact Hd|]. split; [exact Ha|].
  split; [intros v; apply layoutStyles_rows|].
  split; [intros v; apply layoutStyles_columns|].
  apply layoutStyles_keys.
Qed.

Lemma layout_utility_tracks_witness :
  let config :=
    FullArea {| rows := [lit "head head"; lit "side main"];
                gridTemplateRows := Some (lit "auto 1fr");
                gridTemplateColumns := None |} in
  let options := {| gridTemplateAreas := Some [(lit "app", config)] |} in
  exists styles,
    obj_get (lit ".grid-areas-app") (gridAreasUtilitiesOf options)
    = Some styles
    /\ obj_keys styles
       = [lit "display"; lit "grid-template-areas";
          lit "grid-template-rows"].
Proof.
  intros config options.
  destruct (@layout_utility_tracks options [] [] (lit "app") config)
    as [styles [Hget [_ [_ [_ [_ Hkeys]]]]]].
  - reflexivity.
  - simpl. tauto.
  - vm_compute. intuition discriminate.
  - exists styles. split; [exact Hget | exact Hkeys].
Defined.

(** A layout with an empty row is processed without any error; its value
    has the empty quoted row. *)
Lemma empty_row_accepted :
  let options :=
    {| gridTemplateAreas := Some [(lit "app", RowsOnly [[]])] |} in
  gridAreasPlugin options <> Throw (lit "MalformedLayout")
  /\ exists registered,
       gridAreasPlugin options = Normal registered
       /\ obj_get (lit ".grid-areas-app") (reg_gridAreas registered)
          = Some [(lit "display", lit "grid");
                  (lit "grid-template-areas", [dquote; dquote])].
Proof.
  intros options. split; [discriminate|].
  eexists. split; reflexivity.
Qed.

(** C2, amended. The static path raises no error: for every configuration
    the handler ends normally and registers its three objects, also when
    a configured layout has an empty row, which is rendered as the empty
    quoted row in its place among the rows. *)
Theorem static_path_never_throws (options : GridAreasPluginOptions) :
  (exists registered,
     gridAreasPlugin options = Normal registered
     /\ reg_gridAreas registered = gridAreasUtilitiesOf options
     /\ reg_gridArea registered = gridAreaUtilities options
     /\ reg_lines registered = lineUtilities options)
  /\ (forall e, gridAreasPlugin options <> Throw e)
  /\ (forall above below,
        formatGridTemplateAreas (above ++ [] :: below)
        = join [space]
            (List.map quoted above ++ [dquote; dquote]
               :: List.map quoted below)).
Proof.
  split; [|split].
  - eexists. split; [reflexivity|]. auto.
  - intros e. discriminate.
  - intros above below. unfold formatGridTemplateAreas.
    now rewrite map_app.
Qed.

(** ** The arbitrary-value parser *)

Section Arbitrary.

Lemma arbitraryRow_emitted (r : jsstring) : rowEmitted r (arbitraryRow r).
Proof.
  unfold rowEmitted, arbitraryRow.
  destruct (search re_var (trim (replaceAll underscore space r))) eqn:E.
  - split; [reflexivity|]. intros H. apply search_re_var in E. tauto.
  - split; [|reflexivity]. intros H. apply search_re_var in H. congruence.
Qed.

Lemma parse_rows (value : jsstring) :
  ~ isVarRef value ->
  parseArbitraryGridAreas value
  = join [space] (List.map arbitraryRow (split (lit ",") value)).
Proof.
  intros H. unfold parseArbitraryGridAreas.
  destruct (matches re_var value) eqn:E; [|reflexivity].
  apply matches_re_var in E. tauto.
Qed.

Lemma parse_var (value : jsstring) :
  isVarRef value -> parseArbitraryGridAreas value = value.
Proof.
  intros H. unfold parseArbitraryGridAreas.
  apply matches_re_var in H. now rewrite H.
Qed.

End Arbitrary.

(** The examples of the documentation. *)
Example parse_three_rows :
  parseArbitraryGridAreas (lit "header_header,sidebar_main,footer_footer")
  = join [space]
      [quoted (lit "header header"); quoted (lit "sidebar main");
       quoted (lit "footer footer")].
Proof. reflexivity. Qed.

Example parse_row_with_var :
  parseArbitraryGridAreas (lit "a_.,b_var(--x)")
  = quoted (lit "a .") ++ [space] ++ lit "b var(--x)".
Proof. reflexivity. Qed.

Example extract_example :
  extractAreaNames [lit "a . b"; lit ". c ."] = [lit "a"; lit "b"; lit "c"].
Proof. reflexivity. Qed.

Example line_utilities_main :
  lineStep [] (lit "main")
  = [(lit ".row-start-main", [(lit "grid-row-start", lit "main-start")]);
     (lit ".row-end-main", [(lit "grid-row-end", lit "main-end")]);
     (lit ".row-span-main", [(lit "grid-row", lit "main-start / main-end")]);
     (lit ".col-start-main", [(lit "grid-column-start", lit "main-start")]);
     (lit ".col-end-main", [(lit "grid-column-end", lit "main-end")]);
     (lit ".col-span-main",
      [(lit "grid-column", lit "main-start / main-end")])].
Proof. reflexivity. Qed.

(** *** The rows of an arbitrary value, without the functions of the code *)

Section RowRendering.

Lemma replaceAll_underscoresReplaced (r : jsstring) :
  underscoresReplaced r (replaceAll underscore space r).
Proof.
  unfold underscoresReplaced, replaceAll.
  induction r as [|x r IH]; simpl; constructor; [|exact IH].
  destruct (char_eqb x underscore) eqn:E.
  - apply char_eqb_eq in E. now left.
  - right. split; [|reflexivity]. intros ->.
    now rewrite char_eqb_refl in E.
Qed.

Lemma underscoresReplaced_unique (r s : jsstring) :
  underscoresReplaced r s -> s = replaceAll underscore space r.
Proof.
  unfold replaceAll. induction 1 as [|x y r s Hxy _ IH]; [reflexivity|].
  simpl. rewrite <- IH. f_equal.
  destruct Hxy as [[-> ->]|[Hx ->]].
  - now rewrite char_eqb_refl.
  - destruct (char_eqb x underscore) eqn:E; [|reflexivity].
    apply char_eqb_eq in E. contradiction.
Qed.

Lemma trim_trimmedFrom (s : jsstring) : trimmedFrom s (trim s).
Proof.
  split; [apply trim_decomp|]. split.
  - intros c u H. eapply trim_head; exact H.
  - intros u c H. eapply trim_last; exact H.
Qed.

Lemma trimStart_ws_app (a s : jsstring) :
  forallb isWhiteSpace a = true -> trimStart (a ++ s) = trimStart s.
Proof.
  induction a as [|x a IH]; [reflexivity|]. simpl.
  intros H. apply andb_true_iff in H as [Hx Ha]. rewrite Hx. auto.
Qed.

(** [trimmedFrom] determines the trimmed string: it is the one that
    [trim] computes. *)
Lemma trimmedFrom_unique (s t : jsstring) :
  trimmedFrom s t -> t = trim s.
Proof.
  intros [[a [b [-> [Ha Hb]]]] [Hhead Hlast]].
  unfold trim. rewrite trimStart_ws_app by exact Ha.
  destruct t as [|c u].
  - simpl. now rewrite trimStart_blank by exact Hb.
  - assert (Hc := Hhead c u eq_refl).
    rewrite (@trimStart_id ((c :: u) ++ b) c (u ++ b) eq_refl Hc).
    unfold trimEnd. rewrite rev_app_distr.
    rewrite trimStart_ws_app by now rewrite forallb_rev.
    destruct (exists_last_cons c u) as [v [d Hv]].
    assert (Hd := Hlast v d Hv). rewrite Hv.
    rewrite rev_app_distr. cbn [rev app]. cbn [trimStart]. rewrite Hd.
    cbn [rev]. now rewrite rev_involutive.
Qed.

Lemma arbitraryRow_rendered (r : jsstring) : rowRendered r (arbitraryRow r).
Proof.
  exists (replaceAll underscore space r),
         (trim (replaceAll underscore space r)).
  split; [apply replaceAll_underscoresReplaced|].
  split; [apply trim_trimmedFrom|].
  apply arbitraryRow_emitted.
Qed.

Lemma Forall2_rendered (rowList : list jsstring) :
  Forall2 rowRendered rowList (List.map arbitraryRow rowList).
Proof.
  induction rowList as [|r rl IH]; simpl; constructor;
    [apply arbitraryRow_rendered | exact IH].
Qed.

(** The empty row can only be rendered as the empty quoted row. *)
Lemma rowRendered_empty (o : jsstring) :
  rowRendered [] o -> o = [dquote; dquote].
Proof.
  intros [s [t [Hs [Ht [_ Hq]]]]].
  apply underscoresReplaced_unique in Hs. apply trimmedFrom_unique in Ht.
  subst s t. apply Hq.
  intros [a [m [b [E _]]]]. destruct a; discriminate.
Qed.

End RowRendering.

(** A row that has the shape [var(...)] with a line terminator inside is
    not taken for a reference: it is put between double quotes. *)
Lemma var_row_with_newline_quoted :
  let row := lit "var(--x" ++ [10%N] ++ lit "--y)" in
  let value := lit "a," ++ row in
  ~ isVarRef value
  /\ hasVarShape (cleanRow row)
  /\ parseArbitraryGridAreas value
     = quoted (lit "a") ++ [space] ++ quoted row
  /\ parseArbitraryGridAreas value
     <> quoted (lit "a") ++ [space] ++ row.
Proof.
  intros row value. split.
  - intros H. apply matches_re_var in H. discriminate.
  - split.
    + exists [], (lit "--x" ++ [10%N] ++ lit "--y"), []. reflexivity.
    + split; [reflexivity | vm_compute; discriminate].
Qed.

(** C3, amended. A value that is not as a whole a reference [var(...)] is
    split at its commas into rows; each row has every underscore replaced
    by a space and the white space at its two ends removed, and is emitted
    as it then is when it contains a reference [var(...)] without a line
    terminator between [var(] and the closing parenthesis, between double
    quotes otherwise; the emitted rows are joined with single spaces.  An
    empty row, as between two commas, is emitted as the empty quoted row
    at its place. *)
Theorem arbitrary_rows (value : jsstring) :
  ~ isVarRef value ->
  exists rowList out,
    rowList <> []
    /\ value = join (lit ",") rowList
    /\ Forall (fun r => ~ In comma r) rowList
    /\ Forall2 rowRendered rowList out
    /\ parseArbitraryGridAreas value = join [space] out
    /\ (forall left right,
          rowList = left ++ [] :: right ->
          exists outl outr,
            out = outl ++ [dquote; dquote] :: outr
            /\ Forall2 rowRendered left outl
            /\ Forall2 rowRendered right outr).
Proof.
  intros Hvar.
  exists (split (lit ",") value),
         (List.map arbitraryRow (split (lit ",") value)).
  change (lit ",") with [comma].
  split; [apply split_go_nonempty|].
  split; [symmetry; apply join_split|].
  split; [apply split_free|].
  split; [apply Forall2_rendered|].
  split; [now apply parse_rows|].
  intros left right E. rewrite E, map_app. cbn [List.map].
  exists (List.map arbitraryRow left), (List.map arbitraryRow right).
  split; [reflexivity|]. split; apply Forall2_rendered.
Qed.

Lemma arbitrary_rows_witness :
  let value := lit "_a_.__,,b_var(--x)_" in
  ~ isVarRef value
  /\ parseArbitraryGridAreas value
     = join [space]
         [quoted (lit "a ."); [dquote; dquote]; lit "b var(--x)"]
  /\ exists rowList out,
       value = join (lit ",") rowList
       /\ Forall2 rowRendered rowList out
       /\ parseArbitraryGridAreas value = join [space] out.
Proof.
  intros value.
  assert (Hvar : ~ isVarRef value).
  { intros H. apply matches_re_var in H. discriminate. }
  split; [exact Hvar|]. split; [reflexivity|].
  destruct (arbitrary_rows Hvar)
    as [rowList [out [_ [Hjoin [_ [Hrows [Hparse _]]]]]]].
  exists rowList, out. auto.
Defined.

(** The check of the whole value is made on the value as it is, not on its
    trimmed form: after a leading space the value is split, substituted
    and quoted like any other. *)
Lemma trimmed_var_not_unchanged :
  let value := lit " var(--a_b,c)" in
  lang re_var (trim value)
  /\ parseArbitraryGridAreas value
     = quoted (lit "var(--a b") ++ [space] ++ quoted (lit "c)")
  /\ parseArbitraryGridAreas value <> value.
Proof.
  intros value. split; [apply matches_lang; reflexivity|].
  split; [reflexivity | vm_compute; discriminate].
Qed.

(** C4, amended. Every value that itself, without trimming, matches
    [^var\(.*\)$] is returned as it is: not split, not substituted, not
    quoted. *)
Theorem whole_var_unchanged (value : jsstring) :
  lang re_var value -> parseArbitraryGridAreas value = value.
Proof.
  intros H. apply parse_var. now apply re_var_lang.
Qed.

Lemma whole_var_unchanged_witness :
  lang re_var (lit "var(--my-areas)")
  /\ parseArbitraryGridAreas (lit "var(--my-areas)") = lit "var(--my-areas)".
Proof.
  assert (H : lang re_var (lit "var(--my-areas)"))
    by (apply matches_lang; reflexivity).
  split; [exact H | exact (whole_var_unchanged H)].
Defined.

(** A line terminator between [var(] and [)] is not matched by [.]: the
    value is then quoted like a row. *)
Lemma var_with_newline_quoted :
  let value := lit "var(" ++ [10%N] ++ lit ")" in
  starts_with (lit "var(") value = true
  /\ starts_with (lit ")") (skipn 5 value) = true
  /\ parseArbitraryGridAreas value = quoted value
  /\ parseArbitraryGridAreas value <> value.
Proof.
  intros value. split; [reflexivity|]. split; [reflexivity|].
  split; [reflexivity | vm_compute; discriminate].
Qed.

(** C9, amended. Every value that begins with [var(], ends with [)] and
    has no line terminator between them is returned as it is, commas and
    closing parentheses inside included: [var(--a),var(--b)] is returned
    whole. *)
Theorem var_with_commas_unchanged (inner : jsstring) :
  noLineTerminator inner = true ->
  parseArbitraryGridAreas (lit "var(" ++ inner ++ lit ")")
  = lit "var(" ++ inner ++ lit ")"
  /\ parseArbitraryGridAreas (lit "var(--a),var(--b)")
     = lit "var(--a),var(--b)".
Proof.
  intros H. split; [|reflexivity].
  apply parse_var. now exists inner.
Qed.

Lemma var_with_commas_unchanged_witness :
  noLineTerminator (lit "--a),var(--b") = true
  /\ parseArbitraryGridAreas (lit "var(" ++ lit "--a),var(--b" ++ lit ")")
     = lit "var(--a),var(--b)".
Proof.
  split; [reflexivity|].
  exact (proj1 (@var_with_commas_unchanged (lit "--a),var(--b") eq_refl)).
Defined.

(** * Further properties of the plugin *)

(** ** Code units of joined, split and trimmed strings *)

Section Membership.

Lemma In_join (sep : jsstring) (l : list jsstring) (c : char) :
  In c (join sep l) -> In c sep \/ exists r, In r l /\ In c r.
Proof.
  induction l as [|x l IH]; [intros []|].
  destruct l as [|y l].
  - simpl. intros H. right. exists x. auto.
  - rewrite join_cons by discriminate. rewrite !in_app_iff.
    intros [H|[H|H]].
    + right. exists x. split; [now left | exact H].
    + now left.
    + destruct (IH H) as [H'|[r [Hr Hc]]]; [now left|].
      right. exists r. split; [now right | exact Hc].
Qed.

Lemma In_join_piece (sep r : jsstring) (l : list jsstring) (c : char) :
  In r l -> In c r -> In c (join sep l).
Proof.
  induction l as [|x l IH]; [intros []|].
  destruct l as [|y l].
  - intros [<-|[]] H. exact H.
  - rewrite join_cons by discriminate. rewrite !in_app_iff.
    intros [<-|Hr] Hc; [now left|]. right. right. now apply IH.
Qed.

Lemma In_trim (s : jsstring) (c : char) : In c (trim s) -> In c s.
Proof.
  intros H. destruct (trim_decomp s) as [a [b [E _]]]. rewrite E.
  apply in_or_app. right. apply in_or_app. now left.
Qed.

Lemma In_replaceAll (c d x : char) (s : jsstring) :
  In x (replaceAll c d s) -> (x = d /\ In c s) \/ (x <> c /\ In x s).
Proof.
  unfold replaceAll. rewrite in_map_iff. intros [y [E Hy]].
  destruct (char_eqb y c) eqn:Eq.
  - apply char_eqb_eq in Eq. subst. now left.
  - right. subst y. split; [|exact Hy].
    intros ->. now rewrite char_eqb_refl in Eq.
Qed.

Lemma replaceAll_id (c d : char) (s : jsstring) :
  ~ In c s -> replaceAll c d s = s.
Proof.
  unfold replaceAll. induction s as [|x s IH]; intros H; [reflexivity|].
  simpl. destruct (char_eqb x c) eqn:E.
  - apply char_eqb_eq in E. exfalso. apply H. now left.
  - f_equal. apply IH. intros H'. apply H. now right.
Qed.

Lemma In_cleanRow (r : jsstring) (c : char) :
  In c (cleanRow r) -> c <> underscore /\ (In c r \/ c = space).
Proof.
  unfold cleanRow. intros H. apply In_trim, In_replaceAll in H.
  destruct H as [[-> _]|[Hne Hin]].
  - split; [discriminate | now right].
  - split; [exact Hne | now left].
Qed.

Lemma cleanRow_no_leading_space (r : jsstring) :
  starts_with [space] (cleanRow r) = false.
Proof.
  unfold cleanRow.
  destruct (trim (replaceAll underscore space r)) as [|c t] eqn:E;
    [reflexivity|].
  pose proof (trim_head _ E) as Hc. cbn [starts_with].
  destruct (char_eqb space c) eqn:Es; [|reflexivity].
  apply char_eqb_eq in Es. subst c. discriminate.
Qed.

Lemma In_split_piece (c x : char) (r s : jsstring) :
  In r (split [c] s) -> In x r -> In x s.
Proof.
  intros Hr Hx. rewrite <- (join_split c s).
  now apply In_join_piece with r.
Qed.

End Membership.

(** ** The arbitrary-value parser and the static path *)

Section ParserFacts.

Lemma arbitraryRow_quoted (r : jsstring) :
  ~ containsVarRef (cleanRow r) -> arbitraryRow r = quoted (cleanRow r).
Proof.
  intros H. unfold arbitraryRow, cleanRow in *.
  destruct (search re_var (trim (replaceAll underscore space r))) eqn:E;
    [|reflexivity].
  apply search_re_var in E. tauto.
Qed.

Lemma arbitraryRow_cases (r : jsstring) :
  (arbitraryRow r = cleanRow r /\ containsVarRef (cleanRow r))
  \/ arbitraryRow r = quoted (cleanRow r).
Proof.
  unfold arbitraryRow, cleanRow.
  destruct (search re_var (trim (replaceAll underscore space r))) eqn:E.
  - left. split; [reflexivity | now apply search_re_var].
  - now right.
Qed.

Lemma In_arbitraryRow (r : jsstring) (c : char) :
  In c (arbitraryRow r) -> c = dquote \/ In c (cleanRow r).
Proof.
  destruct (arbitraryRow_cases r) as [[-> _]| ->]; [now right|].
  unfold quoted. simpl. rewrite in_app_iff. simpl. intuition.
Qed.

Lemma arbitraryRow_nonempty (r : jsstring) : arbitraryRow r <> [].
Proof.
  destruct (arbitraryRow_cases r) as [[-> [a [m [b [E _]]]]]| ->].
  - rewrite E. destruct a; discriminate.
  - discriminate.
Qed.

End ParserFacts.

(** X1. An arbitrary value that is not a reference [var(...)] and none of
    whose rows contains one is rendered as the static path renders the
    configured rows obtained from it (split at commas, underscores
    replaced, trimmed); when the value has no double quote, reading the
    result back gives these rows. *)
Theorem arbitrary_value_as_static_layout (value : jsstring) :
  ~ isVarRef value ->
  (forall r, In r (split (lit ",") value) -> ~ containsVarRef (cleanRow r)) ->
  let rowList := List.map cleanRow (split (lit ",") value) in
  parseArbitraryGridAreas value = formatGridTemplateAreas rowList
  /\ (~ In dquote value ->
      decodeRows (parseArbitraryGridAreas value) = rowList).
Proof.
  intros Hvar Hrows rowList.
  assert (Hparse : parseArbitraryGridAreas value
                   = formatGridTemplateAreas rowList).
  { rewrite parse_rows by exact Hvar.
    unfold formatGridTemplateAreas, rowList. rewrite map_map. f_equal.
    apply map_ext_in. intros r Hr. apply arbitraryRow_quoted. auto. }
  split; [exact Hparse|]. intros Hq. rewrite Hparse.
  apply decode_format.
  - unfold rowList, split. intros E. apply map_eq_nil in E.
    revert E. apply split_go_nonempty.
  - apply Forall_forall. intros x Hx. unfold rowList in Hx.
    apply in_map_iff in Hx as [r [<- Hr]].
    split; [|apply cleanRow_no_leading_space].
    intros Hin. apply In_cleanRow in Hin as [_ [Hin|Hin]];
      [|discriminate].
    apply Hq. change (lit ",") with [comma] in Hr.
    now apply In_split_piece with comma r.
Qed.

Lemma arbitrary_value_as_static_layout_witness :
  let value := lit "header_header,sidebar_main" in
  parseArbitraryGridAreas value
  = formatGridTemplateAreas [lit "header header"; lit "sidebar main"]
  /\ decodeRows (parseArbitraryGridAreas value)
     = [lit "header header"; lit "sidebar main"].
Proof.
  intros value.
  assert (Hvar : ~ isVarRef value).
  { intros H. apply matches_re_var in H. discriminate. }
  assert (Hrows : forall r, In r (split (lit ",") value) ->
                            ~ containsVarRef (cleanRow r)).
  { intros r Hr H. apply search_re_var in H.
    vm_compute in Hr. destruct Hr as [<-|[<-|[]]]; discriminate. }
  destruct (arbitrary_value_as_static_layout Hvar Hrows) as [Hp Hd].
  split; [exact Hp|]. apply Hd.
  vm_compute. intuition discriminate.
Defined.

(** X2. The result for a value that is not a reference [var(...)] has no
    underscore and no comma: every underscore is replaced, also inside a
    [var(...)] that stands for one row, and no comma of the value is
    kept. *)
Theorem arbitrary_value_no_underscore_no_comma (value : jsstring) :
  ~ isVarRef value ->
  ~ In underscore (parseArbitraryGridAreas value)
  /\ ~ In comma (parseArbitraryGridAreas value).
Proof.
  intros Hvar. rewrite parse_rows by exact Hvar.
  assert (H : forall c, In c (join [space]
                           (List.map arbitraryRow (split (lit ",") value))) ->
                        c = space \/ c = dquote
                        \/ exists r, In r (split (lit ",") value)
                                     /\ c <> underscore /\ In c r).
  { intros c Hc. apply In_join in Hc as [[<-|[]]|[o [Ho Hc]]]; [now left|].
    apply in_map_iff in Ho as [r [<- Hr]].
    apply In_arbitraryRow in Hc as [->|Hc]; [now right; left|].
    apply In_cleanRow in Hc as [Hne [Hc| ->]]; [|now left].
    right. right. now exists r. }
  split; intros Hin; apply H in Hin as [E|[E|[r [Hr [Hne Hc]]]]];
    try discriminate; try congruence.
  change (lit ",") with [comma] in Hr.
  pose proof (split_free comma value) as Hfree.
  rewrite Forall_forall in Hfree. exact (Hfree r Hr Hc).
Qed.

Lemma arbitrary_value_no_underscore_no_comma_witness :
  let value := lit "a_b,var(--my_row)" in
  ~ isVarRef value
  /\ parseArbitraryGridAreas value
     = quoted (lit "a b") ++ [space] ++ lit "var(--my row)"
  /\ ~ In underscore (parseArbitraryGridAreas value).
Proof.
  intros value.
  assert (Hvar : ~ isVarRef value).
  { intros H. apply matches_re_var in H. discriminate. }
  split; [exact Hvar|]. split; [reflexivity|].
  exact (proj1 (arbitrary_value_no_underscore_no_comma Hvar)).
Defined.

(** X3. The parser never returns the empty string: the empty value gives
    the empty quoted row, and every row of a value gives at least its two
    quotes or its reference. *)
Theorem arbitrary_value_never_empty (value : jsstring) :
  parseArbitraryGridAreas value <> []
  /\ parseArbitraryGridAreas [] = [dquote; dquote].
Proof.
  split; [|reflexivity].
  unfold parseArbitraryGridAreas.
  destruct (matches re_var value) eqn:E.
  - apply matches_re_var in E as [m [-> _]]. discriminate.
  - unfold split.
    destruct (split_go (lit ",") 0 [] value) as [|r rl] eqn:Es.
    + exfalso. revert Es. apply split_go_nonempty.
    + cbn [List.map]. pose proof (arbitraryRow_nonempty r) as Hr.
      destruct rl as [|r' rl]; [exact Hr|].
      cbn [List.map]. rewrite join_cons by discriminate.
      destruct (arbitraryRow r); [congruence | discriminate].
Qed.

(** X4. The resolver of [grid-area-[value]] only replaces underscores by
    spaces: the result has the length of the value and no underscore, it
    is the value itself exactly when the value has no underscore, and
    resolving it again changes nothing.  Nothing is trimmed, split or
    quoted, and a reference [var(...)] is not recognised. *)
Theorem grid_area_resolver (value : jsstring) :
  let v := replaceAll underscore space value in
  matchGridArea value = [(lit "grid-area", v)]
  /\ List.length v = List.length value
  /\ ~ In underscore v
  /\ (v = value <-> ~ In underscore value)
  /\ matchGridArea v = matchGridArea value.
Proof.
  intros v.
  assert (Hno : ~ In underscore v).
  { intros H. apply In_replaceAll in H as [[H _]|[H _]];
      [discriminate | congruence]. }
  split; [reflexivity|]. split; [apply length_map|].
  split; [exact Hno|]. split.
  - split; [intros E; rewrite <- E; exact Hno | apply replaceAll_id].
  - unfold matchGridArea. fold v. now rewrite replaceAll_id by exact Hno.
Qed.

(** ** The area names of a configuration *)

Section AreaNameFacts.

Lemma tokens_go_wellformed (cur s : jsstring) :
  noWhiteSpace cur = true ->
  Forall (fun t => t <> [] /\ noWhiteSpace t = true) (tokens_go cur s).
Proof.
  unfold noWhiteSpace.
  assert (Hflush : forall cur,
             forallb (fun c => negb (isWhiteSpace c)) cur = true ->
             Forall (fun t => t <> []
                       /\ forallb (fun c => negb (isWhiteSpace c)) t = true)
               (flush cur)).
  { intros [|c cur'] H; [constructor|]. constructor; [|constructor].
    split; [|now rewrite forallb_rev].
    intros E. apply (f_equal (@rev char)) in E.
    rewrite rev_involutive in E. discriminate. }
  revert cur; induction s as [|c s IH]; intros cur Hcur; simpl.
  - now apply Hflush.
  - destruct (isWhiteSpace c) eqn:Hc.
    + apply Forall_app. split; [now apply Hflush | now apply IH].
    + apply IH. simpl. now rewrite Hc.
Qed.

Lemma tokens_wellformed (row : jsstring) :
  Forall (fun t => t <> [] /\ noWhiteSpace t = true) (tokens row).
Proof. now apply tokens_go_wellformed. Qed.

Lemma tokens_go_nil (cur s : jsstring) :
  tokens_go cur s = [] -> cur = [] /\ forallb isWhiteSpace s = true.
Proof.
  revert cur; induction s as [|c s IH]; intros cur; simpl.
  - destruct cur; [auto | discriminate].
  - destruct (isWhiteSpace c) eqn:Hc.
    + intros H. apply app_eq_nil in H as [Hf H].
      destruct cur; [|discriminate]. split; [reflexivity|].
      exact (proj2 (IH [] H)).
    + intros H. exfalso. revert H. apply tokens_go_nonempty. discriminate.
Qed.

(** A row has no token exactly when it is empty or white space only. *)
Lemma tokens_nil_iff (row : jsstring) :
  tokens row = [] <-> forallb isWhiteSpace row = true.
Proof.
  split.
  - intros H. exact (proj2 (tokens_go_nil _ _ H)).
  - intros H. unfold tokens.
    change row with ([] ++ row). now rewrite tokens_go_ws_end.
Qed.

Lemma tokens_go_token (t cur rest : jsstring) :
  noWhiteSpace t = true ->
  tokens_go cur (t ++ rest) = tokens_go (rev t ++ cur) rest.
Proof.
  unfold noWhiteSpace. revert cur; induction t as [|c t IH]; intros cur H;
    [reflexivity|].
  simpl in H. apply andb_true_iff in H as [Hc Ht].
  apply negb_true_iff in Hc. simpl. rewrite Hc, IH by exact Ht.
  now rewrite <- app_assoc.
Qed.

(** The tokens of a row written with single spaces are the tokens it was
    written from. *)
Lemma tokens_join (ts : list jsstring) :
  Forall (fun t => t <> [] /\ noWhiteSpace t = true) ts ->
  tokens (join [space] ts) = ts.
Proof.
  unfold tokens. induction ts as [|t ts IH]; [reflexivity|].
  intros H. inversion H as [|? ? [Hne Hws] Hts]; subst.
  assert (Hflush : flush (rev t) = [t]).
  { destruct (rev t) eqn:E; cbn [flush].
    - apply (f_equal (@rev char)) in E. rewrite rev_involutive in E.
      contradiction.
    - now rewrite <- E, rev_involutive. }
  destruct ts as [|t' ts].
  - simpl. rewrite <- (app_nil_r t) at 1.
    rewrite tokens_go_token by exact Hws. simpl.
    now rewrite app_nil_r.
  - rewrite join_cons by discriminate.
    rewrite tokens_go_token by exact Hws. rewrite app_nil_r.
    cbn [app tokens_go]. change (isWhiteSpace space) with true. cbn iota.
    rewrite Hflush. cbn [app]. f_equal. now apply IH.
Qed.

Lemma extract_fold_same_tokens (rows1 rows2 : list jsstring)
  (s : StringSet) :
  Forall2 (fun r1 r2 => tokens r1 = tokens r2) rows1 rows2 ->
  fold_left (fun areaNames row => addAreas areaNames (splitWs (trim row)))
    rows1 s
  = fold_left (fun areaNames row => addAreas areaNames (splitWs (trim row)))
      rows2 s.
Proof.
  intros H. revert s. induction H as [|r1 r2 l1 l2 Hr _ IH]; intros s;
    [reflexivity|].
  simpl. rewrite !splitWs_trim, Hr. apply IH.
Qed.

End AreaNameFacts.

(** Among the names of a layout with a blank row is the empty string,
    which is not a token of any row. *)
Lemma blank_row_not_a_token :
  let rowList := [lit "a"; lit "  "] in
  extractAreaNames rowList = [lit "a"; []]
  /\ In [] (extractAreaNames rowList)
  /\ ~ (exists row, In row rowList /\ In [] (tokens row)).
Proof.
  intros rowList. split; [reflexivity|]. split; [vm_compute; auto|].
  intros [row [[<-|[<-|[]]] H]]; vm_compute in H; intuition discriminate.
Qed.

(** C5, amended. For every sequence of rows, [extractAreaNames] returns,
    without repetition, the white-space-separated tokens of the rows other
    than the markers [.] and [..], and also the empty string when some row
    is empty or white space only.  No other token is left out, whatever
    its case or punctuation, and nothing else is returned. *)
Theorem extractAreaNames_distinct_tokens (rowList : list jsstring) :
  NoDup (extractAreaNames rowList)
  /\ forall x,
       In x (extractAreaNames rowList)
       <-> ((exists row, In row rowList /\ In x (tokens row))
            /\ x <> lit "." /\ x <> lit "..")
           \/ (x = []
               /\ exists row,
                    In row rowList /\ forallb isWhiteSpace row = true).
Proof.
  split; [apply NoDup_extractAreaNames|]. intros x.
  rewrite In_extractAreaNames. unfold isAreaName. split.
  - intros [[row [Hr Hp]] Hm]. apply In_splitWs_trim in Hp as [Hp|[Hn ->]].
    + left. split; [now exists row | exact Hm].
    + right. split; [reflexivity|]. exists row.
      split; [exact Hr | now apply tokens_nil_iff].
  - intros [[[row [Hr Hp]] Hm]|[-> [row [Hr Hb]]]].
    + split; [|exact Hm]. exists row. split; [exact Hr|].
      apply In_splitWs_trim. now left.
    + split; [|split; discriminate]. exists row. split; [exact Hr|].
      rewrite splitWs_blank by exact Hb. now left.
Qed.

Lemma extractAreaNames_distinct_tokens_witness :
  let rowList := [lit "a . b"; lit " . c  .. "; lit ""] in
  extractAreaNames rowList = [lit "a"; lit "b"; lit "c"; []]
  /\ NoDup (extractAreaNames rowList)
  /\ In (lit "c") (extractAreaNames rowList).
Proof.
  intros rowList. split; [reflexivity|].
  destruct (extractAreaNames_distinct_tokens rowList) as [Hnd Hin].
  split; [exact Hnd|]. apply Hin. left.
  split; [|split; discriminate].
  exists (lit " . c  .. "). split; [simpl; auto | vm_compute; auto].
Defined.

(** X5. The area names collected over a configuration are, without
    repetition, exactly the pieces of the rows of its layouts (shorthand
    or full) other than the two markers of an empty cell. *)
Theorem area_registry_collects (options : GridAreasPluginOptions) :
  NoDup (allAreaNamesOf options)
  /\ forall x,
       In x (allAreaNamesOf options)
       <-> exists name config row,
             In (name, config) (entriesOf options)
             /\ In row (rows (normalizeAreaConfig config))
             /\ In x (splitWs (trim row))
             /\ x <> lit "." /\ x <> lit "..".
Proof.
  split; [apply NoDup_allAreaNamesOf|]. intros x.
  rewrite In_allAreaNamesOf. split.
  - intros [name [config [He Hx]]].
    apply In_extractAreaNames in Hx as [[row [Hr Hp]] [H1 H2]].
    exists name, config, row. auto.
  - intros [name [config [row [He [Hr [Hp [H1 H2]]]]]]].
    exists name, config. split; [exact He|].
    apply In_extractAreaNames. split; [now exists row | now split].
Qed.

(** X6. An area name never contains white space and is never a marker;
    it is then a cell token of some row, except the empty name, which is
    collected exactly when some row is empty or white space only. *)
Theorem area_names_wellformed (rowList : list jsstring) :
  (forall x, In x (extractAreaNames rowList) ->
             noWhiteSpace x = true /\ x <> lit "." /\ x <> lit ".."
             /\ (x = [] \/ exists row, In row rowList /\ In x (tokens row)))
  /\ (In [] (extractAreaNames rowList)
      <-> exists row, In row rowList /\ forallb isWhiteSpace row = true).
Proof.
  split.
  - intros x Hx. apply In_extractAreaNames in Hx as [[row [Hr Hp]] [H1 H2]].
    apply In_splitWs_trim in Hp as [Hp|[_ ->]].
    + pose proof (tokens_wellformed row) as Hw.
      rewrite Forall_forall in Hw. destruct (Hw x Hp) as [_ Hws].
      repeat split; try assumption. right. now exists row.
    + repeat split; try assumption. now left.
  - split.
    + intros Hx. apply In_extractAreaNames in Hx as [[row [Hr Hp]] _].
      exists row. split; [exact Hr|]. apply tokens_nil_iff.
      apply In_splitWs_trim in Hp as [Hp|[Hp _]]; [|exact Hp].
      pose proof (tokens_wellformed row) as Hw.
      rewrite Forall_forall in Hw. destruct (Hw [] Hp) as [Hne _].
      congruence.
    + intros [row [Hr Hb]]. apply In_extractAreaNames. split.
      * exists row. split; [exact Hr|]. rewrite splitWs_blank by exact Hb.
        now left.
      * split; discriminate.
Qed.

Lemma area_names_wellformed_witness :
  let rowList := [lit "head head"; lit "  "] in
  In [] (extractAreaNames rowList)
  /\ noWhiteSpace (lit "head") = true.
Proof.
  intros rowList.
  destruct (area_names_wellformed rowList) as [Hall Hblank].
  split.
  - apply Hblank. exists (lit "  "). split; [simpl; auto | reflexivity].
  - apply (Hall (lit "head")). vm_compute. auto.
Defined.

(** X7. The area names depend on the tokens of the rows only, not on the
    white space between or around them: rows with the same tokens give
    the same names in the same order, and so does each row rewritten with
    single spaces (unlike the value of [grid-template-areas], which keeps
    the white space). *)
Theorem area_names_ignore_white_space (rows1 rows2 : list jsstring) :
  Forall2 (fun r1 r2 => tokens r1 = tokens r2) rows1 rows2 ->
  extractAreaNames rows1 = extractAreaNames rows2
  /\ extractAreaNames (List.map (fun r => join [space] (tokens r)) rows1)
     = extractAreaNames rows1.
Proof.
  intros H. split; [now apply extract_fold_same_tokens|].
  apply extract_fold_same_tokens.
  clear H. induction rows1 as [|r l IH]; simpl; constructor; [|exact IH].
  apply tokens_join, tokens_wellformed.
Qed.

Lemma area_names_ignore_white_space_witness :
  extractAreaNames [lit "  head   head "; lit "side main"]
  = extractAreaNames [lit "head head"; lit "side   main"].
Proof.
  refine (proj1 (@area_names_ignore_white_space
                   [lit "  head   head "; lit "side main"]
                   [lit "head head"; lit "side   main"] _)).
  repeat constructor.
Defined.

(** ** The entries of the registered objects *)

Section EntryFacts.

Lemma obj_set_In (V : Type) (k k' : jsstring) (v v' : V) (o : obj V) :
  In (k', v') (obj_set k v o) -> (k' = k /\ v' = v) \/ In (k', v') o.
Proof.
  induction o as [|[k0 v0] o IH]; simpl.
  - intros [H|[]]. injection H as <- <-. now left.
  - destruct (str_eqb k0 k) eqn:E; simpl.
    + apply str_eqb_eq in E. subst k0. intros [H|H]; [|auto].
      injection H as <- <-. now left.
    + intros [H|H]; [auto|]. destruct (IH H); auto.
Qed.

Lemma obj_get_Some_In (V : Type) (k : jsstring) (v : V) (o : obj V) :
  obj_get k o = Some v -> In (k, v) o.
Proof.
  induction o as [|[k0 v0] o IH]; simpl; [discriminate|].
  destruct (str_eqb k0 k) eqn:E; [|auto].
  apply str_eqb_eq in E. subst k0. intros H. injection H as <-. now left.
Qed.

Lemma obj_get_None (V : Type) (k : jsstring) (o : obj V) :
  ~ In k (obj_keys o) -> obj_get k o = None.
Proof.
  intros H. destruct (obj_get k o) as [v|] eqn:E; [|reflexivity].
  exfalso. apply H. exact (obj_get_Some_key _ _ E).
Qed.

Lemma fold_set_In (V : Type) (p : jsstring) (f : jsstring -> V)
  (ks : list jsstring) (o : obj V) (sel : jsstring) (body : V) :
  In (sel, body) (fold_left (fun o k => obj_set (p ++ k) (f k) o) ks o) ->
  In (sel, body) o \/ exists k, In k ks /\ sel = p ++ k /\ body = f k.
Proof.
  revert o; induction ks as [|k ks IH]; intros o; simpl; [auto|].
  intros H. destruct (IH _ H) as [H'|[k' [Hk' E]]].
  - apply obj_set_In in H' as [[-> ->]|H']; [|now left].
    right. exists k. auto.
  - right. exists k'. auto.
Qed.

Lemma layout_fold_In (entries : list (jsstring * AreaConfig))
  (st : LayoutLoop) (sel : jsstring) (body : CssInJs) :
  In (sel, body) (gridAreasUtilities (fold_left layoutStep entries st)) ->
  In (sel, body) (gridAreasUtilities st)
  \/ exists name config,
       In (name, config) entries
       /\ sel = lit ".grid-areas-" ++ name /\ body = layoutStyles config.
Proof.
  revert st; induction entries as [|[n c] entries IH]; intros st; simpl;
    [auto|].
  intros H. destruct (IH _ H) as [H'|[n' [c' [Hin E]]]].
  - cbn [layoutStep gridAreasUtilities] in H'.
    apply obj_set_In in H' as [[-> ->]|H']; [|now left].
    right. exists n, c. auto.
  - right. exists n', c'. auto.
Qed.

Lemma gridAreasUtilitiesOf_In (options : GridAreasPluginOptions)
  (sel : jsstring) (body : CssInJs) :
  In (sel, body) (gridAreasUtilitiesOf options) ->
  exists x,
    sel = lit ".grid-areas-" ++ x
    /\ ((In x CSS_KEYWORDS /\ body = keywordStyles x)
        \/ (~ In x CSS_KEYWORDS
            /\ exists config,
                 In (x, config) (entriesOf options)
                 /\ body = layoutStyles config)).
Proof.
  intros Hin. pose proof Hin as H. unfold gridAreasUtilitiesOf in H.
  apply (fold_set_In (lit ".grid-areas-") keywordStyles) in H.
  destruct H as [H|[k [Hk [-> ->]]]]; [|exists k; auto].
  apply layout_fold_In in H as [[]|[n [c [Hn [-> ->]]]]].
  exists n. split; [reflexivity|].
  destruct (in_dec str_eq_dec n CSS_KEYWORDS) as [Hkw|Hkw].
  - left. split; [exact Hkw|].
    pose proof (obj_get_In _ _ _ (NoDup_gridAreasUtilitiesOf options) Hin)
      as Hget.
    rewrite (gridAreasUtilitiesOf_keyword options Hkw) in Hget.
    now injection Hget.
  - right. split; [exact Hkw|]. now exists c.
Qed.

Lemma gridAreaUtilities_In (options : GridAreasPluginOptions)
  (sel : jsstring) (body : CssInJs) :
  In (sel, body) (gridAreaUtilities options) ->
  exists x,
    (In x (allAreaNamesOf options) \/ In x GRID_AREA_KEYWORDS)
    /\ sel = lit ".grid-area-" ++ x /\ body = areaStyles x.
Proof.
  unfold gridAreaUtilities. intros H.
  apply (fold_set_In (lit ".grid-area-") areaStyles) in H.
  destruct H as [H|[k [Hk E]]]; [|exists k; auto].
  apply (fold_set_In (lit ".grid-area-") areaStyles) in H.
  destruct H as [[]|[k [Hk E]]]. exists k. auto.
Qed.

Lemma lineUtilities_key (options : GridAreasPluginOptions)
  (sel : jsstring) :
  In sel (obj_keys (lineUtilities options)) ->
  exists Y, In Y (allAreaNamesOf options)
            /\ In sel (obj_keys (lineEntries Y)).
Proof.
  rewrite lineUtilities_flat. apply In_keys_flat_lineEntries.
Qed.

Lemma In_obj_keys (V : Type) (sel : jsstring) (o : obj V) :
  In sel (obj_keys o) -> exists body, In (sel, body) o.
Proof.
  unfold obj_keys. rewrite in_map_iff. intros [[k v] [E H]].
  simpl in E. subst k. now exists v.
Qed.

End EntryFacts.

(** X8. The object of placement utilities has exactly one entry for each
    discovered area name and for each of [auto], [none], [inherit],
    [initial], [revert], [revert-layer] and [unset]: [.grid-area-x] with
    [grid-area: x], and no other entry; an area named like a keyword
    shares the keyword's entry. *)
Theorem placement_utilities_entries (options : GridAreasPluginOptions)
  (sel : jsstring) (body : CssInJs) :
  (In (sel, body) (gridAreaUtilities options)
   <-> exists x,
         (In x (allAreaNamesOf options)
          \/ In x [lit "auto"; lit "none"; lit "inherit"; lit "initial";
                   lit "revert"; lit "revert-layer"; lit "unset"])
         /\ sel = lit ".grid-area-" ++ x /\ body = [(lit "grid-area", x)])
  /\ entriesAt sel (gridAreaUtilities options) <= 1.
Proof.
  split; [split|].
  - apply gridAreaUtilities_In.
  - intros [x [Hx [-> ->]]]. apply obj_get_Some_In.
    now apply gridAreaUtilities_get.
  - destruct (in_dec str_eq_dec sel (obj_keys (gridAreaUtilities options)))
      as [H|H].
    + rewrite entriesAt_present;
        [lia | apply NoDup_gridAreaUtilities | exact H].
    + rewrite entriesAt_absent by exact H. lia.
Qed.

(** X9. Every entry of the object of layout utilities is [.grid-areas-x]
    for a keyword [x], with the keyword's declaration, or for the name
    [x] of a configured layout that is not a keyword, with the styles of
    a layout of that name; in either case it sets [display: grid] and
    [grid-template-areas]. *)
Theorem layout_utilities_entries (options : GridAreasPluginOptions)
  (sel : jsstring) (body : CssInJs) :
  In (sel, body) (gridAreasUtilitiesOf options) ->
  (exists x,
     sel = lit ".grid-areas-" ++ x
     /\ ((In x CSS_KEYWORDS
          /\ body = [(lit "display", lit "grid");
                     (lit "grid-template-areas", x)])
         \/ (~ In x CSS_KEYWORDS
             /\ exists config,
                  In (x, config) (entriesOf options)
                  /\ body = layoutStyles config)))
  /\ obj_get (lit "display") body = Some (lit "grid")
  /\ obj_get (lit "grid-template-areas") body <> None.
Proof.
  intros H. pose proof (gridAreasUtilitiesOf_In _ _ _ H) as Hx.
  split; [exact Hx|].
  destruct Hx as [x [_ [[_ ->]|[_ [config [_ ->]]]]]].
  - split; [reflexivity | discriminate].
  - destruct (layoutStyles_fixed config) as [-> ->].
    split; [reflexivity | discriminate].
Qed.

Lemma layout_utilities_entries_witness :
  let options :=
    {| gridTemplateAreas := Some [(lit "app", RowsOnly [lit "a b"])] |} in
  let body := layoutStyles (RowsOnly [lit "a b"]) in
  In (lit ".grid-areas-app", body) (gridAreasUtilitiesOf options)
  /\ obj_get (lit "display") body = Some (lit "grid").
Proof.
  intros options body.
  assert (H : In (lit ".grid-areas-app", body) (gridAreasUtilitiesOf options))
    by (vm_compute; auto).
  split; [exact H|].
  exact (proj1 (proj2 (@layout_utilities_entries options _ _ H))).
Defined.

(** X10. The three objects handed to [addUtilities] have no selector in
    common, whatever the names of the layouts and of the areas: a layout
    utility, a placement utility and a line utility never replace one
    another. *)
Theorem utility_families_disjoint (options : GridAreasPluginOptions)
  (sel : jsstring) :
  ~ (In sel (obj_keys (gridAreasUtilitiesOf options))
     /\ In sel (obj_keys (gridAreaUtilities options)))
  /\ ~ (In sel (obj_keys (gridAreasUtilitiesOf options))
        /\ In sel (obj_keys (lineUtilities options)))
  /\ ~ (In sel (obj_keys (gridAreaUtilities options))
        /\ In sel (obj_keys (lineUtilities options))).
Proof.
  assert (HA : In sel (obj_keys (gridAreasUtilitiesOf options)) ->
               exists x, sel = lit ".grid-areas-" ++ x).
  { intros H. apply In_obj_keys in H as [body H].
    apply gridAreasUtilitiesOf_In in H as [x [E _]]. now exists x. }
  assert (HB : In sel (obj_keys (gridAreaUtilities options)) ->
               exists x, sel = lit ".grid-area-" ++ x).
  { intros H. apply In_obj_keys in H as [body H].
    apply gridAreaUtilities_In in H as [x [_ [E _]]]. now exists x. }
  assert (HC : In sel (obj_keys (lineUtilities options)) ->
               exists Y, In sel (obj_keys (lineEntries Y))).
  { intros H. apply lineUtilities_key in H as [Y [_ H]]. now exists Y. }
  split; [|split].
  - intros [H1 H2]. destruct (HA H1) as [x ->]. destruct (HB H2) as [y E].
    cbn in E. congruence.
  - intros [H1 H2]. destruct (HA H1) as [x ->]. destruct (HC H2) as [Y E].
    cbn [lineEntries obj_keys List.map fst In] in E.
    repeat (destruct E as [E|E]; [cbn in E; congruence|]). exact E.
  - intros [H1 H2]. destruct (HB H1) as [x ->]. destruct (HC H2) as [Y E].
    cbn [lineEntries obj_keys List.map fst In] in E.
    repeat (destruct E as [E|E]; [cbn in E; congruence|]). exact E.
Qed.

(** X11. A line utility exists for discovered area names only: each of
    the six selectors of a name [X] is absent from the object of line
    utilities exactly when [X] is not a discovered area name; the
    keywords get no line utility of their own. *)
Theorem line_utility_absent (options : GridAreasPluginOptions)
  (X sel : jsstring) :
  In sel (obj_keys (lineEntries X)) ->
  (obj_get sel (lineUtilities options) = None
   <-> ~ In X (allAreaNamesOf options)).
Proof.
  intros Hsel. split.
  - intros Hnone HX.
    apply In_obj_keys in Hsel as [body Hb].
    rewrite (lineUtilities_get options HX Hb) in Hnone. discriminate.
  - intros HX. apply obj_get_None. intros Hk.
    apply lineUtilities_key in Hk as [Y [HY Hk]].
    rewrite (lineEntries_keys_inj Hsel Hk) in HX. contradiction.
Qed.

Lemma line_utility_absent_witness :
  let options :=
    {| gridTemplateAreas := Some [(lit "app", RowsOnly [lit "main side"])] |}
  in
  obj_get (lit ".row-start-auto") (lineUtilities options) = None
  /\ ~ In (lit "auto") (allAreaNamesOf options).
Proof.
  intros options.
  assert (Hsel : In (lit ".row-start-auto")
                   (obj_keys (lineEntries (lit "auto"))))
    by (left; reflexivity).
  assert (Hnone : obj_get (lit ".row-start-auto") (lineUtilities options)
                  = None) by reflexivity.
  split; [exact Hnone|].
  exact (proj1 (line_utility_absent options Hsel) Hnone).
Defined.

(** ** Configurations that register the same utilities *)

Section Configurations.

Lemma same_layoutLoop_same_registration
  (options1 options2 : GridAreasPluginOptions) :
  layoutLoop options1 = layoutLoop options2 ->
  gridAreasPlugin options1 = gridAreasPlugin options2.
Proof.
  intros H.
  unfold gridAreasPlugin, gridAreasUtilitiesOf, gridAreaUtilities,
    lineUtilities, allAreaNamesOf.
  now rewrite H.
Qed.

Lemma layoutStyles_effective (c1 c2 : AreaConfig) :
  rows (normalizeAreaConfig c1) = rows (normalizeAreaConfig c2) ->
  effectiveTrack (gridTemplateRows (normalizeAreaConfig c1))
  = effectiveTrack (gridTemplateRows (normalizeAreaConfig c2)) ->
  effectiveTrack (gridTemplateColumns (normalizeAreaConfig c1))
  = effectiveTrack (gridTemplateColumns (normalizeAreaConfig c2)) ->
  layoutStyles c1 = layoutStyles c2.
Proof.
  unfold layoutStyles.
  destruct (normalizeAreaConfig c1) as [r1 [[|a1 t1]|] [[|b1 u1]|]];
    destruct (normalizeAreaConfig c2) as [r2 [[|a2 t2]|] [[|b2 u2]|]];
    cbn; intros -> Hr Hc; try discriminate;
    try (injection Hr as -> ->); try (injection Hc as -> ->); reflexivity.
Qed.

Lemma fold_set_add_app (l : list jsstring) (s : StringSet) :
  exists extra,
    fold_left (fun s a => set_add a s) l s = s ++ extra
    /\ forall x, In x extra <-> In x l /\ ~ In x s.
Proof.
  revert s; induction l as [|a l IH]; intros s.
  - exists []. simpl. rewrite app_nil_r. split; [reflexivity | tauto].
  - cbn [fold_left]. unfold set_add at 2.
    destruct (set_has a s) eqn:E.
    + apply set_has_In in E. destruct (IH s) as [extra [Hf Hx]].
      exists extra. split; [exact Hf|]. intros x. rewrite Hx. simpl.
      split; [tauto|]. intros [[->|H] Hn]; tauto.
    + assert (Ha : ~ In a s) by (rewrite <- set_has_In; congruence).
      destruct (IH (s ++ [a])) as [extra [Hf Hx]].
      exists (a :: extra). split; [now rewrite Hf, <- app_assoc|].
      intros x. simpl. rewrite Hx, in_app_iff. simpl. split.
      * intros [<-|[Hl Hn]]; [tauto|]. split; [tauto|]. tauto.
      * intros [[->|Hl] Hn]; [now left|].
        destruct (str_eq_dec a x) as [->|Hne]; [now left | right].
        split; [exact Hl|]. intros [H|[H|[]]]; tauto.
Qed.

End Configurations.

(** X12. Two configurations that differ in one layout register the same
    utilities when the two forms of the layout have the same rows and the
    same tracks, a track that is the empty string counting as a track
    that is not given: in particular a bare list of rows and the full
    form without tracks are interchangeable. *)
Theorem equivalent_layouts_register_alike
  (options1 options2 : GridAreasPluginOptions)
  (before after : list (jsstring * AreaConfig)) (name : jsstring)
  (c1 c2 : AreaConfig) :
  entriesOf options1 = before ++ (name, c1) :: after ->
  entriesOf options2 = before ++ (name, c2) :: after ->
  rows (normalizeAreaConfig c1) = rows (normalizeAreaConfig c2) ->
  effectiveTrack (gridTemplateRows (normalizeAreaConfig c1))
  = effectiveTrack (gridTemplateRows (normalizeAreaConfig c2)) ->
  effectiveTrack (gridTemplateColumns (normalizeAreaConfig c1))
  = effectiveTrack (gridTemplateColumns (normalizeAreaConfig c2)) ->
  gridAreasPlugin options1 = gridAreasPlugin options2.
Proof.
  intros H1 H2 Hrows Htr Htc. apply same_layoutLoop_same_registration.
  unfold layoutLoop. rewrite H1, H2, !fold_left_app. cbn [fold_left].
  f_equal. unfold layoutStep.
  now rewrite Hrows, (layoutStyles_effective c1 c2 Hrows Htr Htc).
Qed.

Lemma equivalent_layouts_register_alike_witness :
  gridAreasPlugin
    {| gridTemplateAreas := Some [(lit "app", RowsOnly [lit "a b"])] |}
  = gridAreasPlugin
      {| gridTemplateAreas :=
           Some [(lit "app",
                  FullArea {| rows := [lit "a b"];
                              gridTemplateRows := Some [];
                              gridTemplateColumns := None |})] |}.
Proof.
  apply (@equivalent_layouts_register_alike _ _ [] [] (lit "app")
           (RowsOnly [lit "a b"])
           (FullArea {| rows := [lit "a b"];
                        gridTemplateRows := Some [];
                        gridTemplateColumns := None |}));
    reflexivity.
Defined.

(** X13. When the entries that [Object.entries] enumerates for one
    configuration are those of another followed by the entry of one more
    layout, the area names and the line utilities of the other are kept,
    in their order, and the area names of the last layout that were not
    yet known are appended, with their six line utilities each.  (The
    order is the one of the enumeration, which puts names that are array
    indices first, not the order in which the configuration is written.) *)
Theorem appended_layout_appends (options1 options2 : GridAreasPluginOptions)
  (name : jsstring) (config : AreaConfig) :
  entriesOf options2 = entriesOf options1 ++ [(name, config)] ->
  exists extra,
    allAreaNamesOf options2 = allAreaNamesOf options1 ++ extra
    /\ (forall x,
          In x extra
          <-> In x (extractAreaNames (rows (normalizeAreaConfig config)))
              /\ ~ In x (allAreaNamesOf options1))
    /\ lineUtilities options2
       = lineUtilities options1 ++ flat_map lineEntries extra.
Proof.
  intros H.
  destruct (fold_set_add_app
              (extractAreaNames (rows (normalizeAreaConfig config)))
              (allAreaNamesOf options1)) as [extra [Hf Hx]].
  assert (Hnames : allAreaNamesOf options2
                   = allAreaNamesOf options1 ++ extra).
  { unfold allAreaNamesOf at 1. unfold layoutLoop.
    rewrite H, fold_left_app. cbn [fold_left layoutStep allAreaNames].
    exact Hf. }
  exists extra. split; [exact Hnames|]. split; [exact Hx|].
  now rewrite !lineUtilities_flat, Hnames, flat_map_app.
Qed.

Lemma appended_layout_appends_witness :
  let options1 :=
    {| gridTemplateAreas := Some [(lit "one", RowsOnly [lit "a b"])] |} in
  let options2 :=
    {| gridTemplateAreas :=
         Some [(lit "one", RowsOnly [lit "a b"]);
               (lit "two", RowsOnly [lit "b c"])] |} in
  exists extra,
    allAreaNamesOf options2 = allAreaNamesOf options1 ++ extra
    /\ lineUtilities options2
       = lineUtilities options1 ++ flat_map lineEntries extra.
Proof.
  intros options1 options2.
  destruct (@appended_layout_appends options1 options2 (lit "two")
              (RowsOnly [lit "b c"]) eq_refl) as [extra [Hn [_ Hl]]].
  exists extra. split; [exact Hn | exact Hl].
Defined.

(** X14. The value of [grid-template-areas] is the empty string exactly
    for a layout without rows; with at least one row it starts and ends
    with a double quote, whatever the rows are. *)
Theorem format_empty_iff (rowList : list jsstring) :
  (formatGridTemplateAreas rowList = [] <-> rowList = [])
  /\ (rowList = []
      \/ exists inner,
           formatGridTemplateAreas rowList = dquote :: inner ++ [dquote]).
Proof.
  assert (H : rowList = []
              \/ exists inner,
                   formatGridTemplateAreas rowList
                   = dquote :: inner ++ [dquote]).
  { unfold formatGridTemplateAreas.
    induction rowList as [|r rl IH]; [now left | right].
    destruct rl as [|r' rl].
    - exists r. reflexivity.
    - destruct IH as [IH|[inner IH]]; [discriminate|].
      change (List.map quoted (r :: r' :: rl))
        with (quoted r :: List.map quoted (r' :: rl)).
      rewrite join_cons by discriminate. rewrite IH.
      exists (r ++ [dquote] ++ [space] ++ dquote :: inner).
      unfold quoted. simpl. now rewrite <- !app_assoc. }
  split; [|exact H]. split.
  - intros E. destruct H as [H|[inner H]]; [exact H|].
    rewrite E in H. discriminate.
  - intros ->. reflexivity.
Qed.
